(** * gor_bignum.h: fixed-capacity signed big numbers

    A shallow embedding of [src/gor_bignum.h] in the configuration the header
    selects ([GORBN_SZWORD == 2]: 16-bit words, 32-bit temporaries, 128 words)
    and the properties of its routines.

    Conventions of the embedding
    - a [gorbn_t] word, a [gorbn_utmp_t] temporary and an [int] are integers
      of [Z]; every narrowing conversion of the C code is written out
      ([gorbn_t], [gorbn_utmp_t]);
    - [number] is a [list Z]; a bignum declared in C owns [GORBN_SZARR] words;
    - a routine receives the destination as the C routine does and returns it
      as the call leaves it; the [void] arithmetic and buffer routines return
      it in the [result] monad, whose [Err] is a call that does not come back
      (an access outside an array, a failed [GORBN_ASSERT]);
    - an index that a loop bounds by the constant [GORBN_SZARR] is read with
      the total lookup [!!!]; an index computed from data goes through the
      checked accessors [rd] and [wr] of the [result] monad. *)

From Stdlib Require Import ZArith Lia List.
From stdpp Require Import base numbers list.

Local Open Scope Z_scope.

(** ** Configuration ([#define]s of the header) *)

Definition GORBN_SZWORD : nat := 2.
Definition GORBN_SZARR : nat := Eval cbv in (256 / GORBN_SZWORD)%nat.
Definition GORBN_MAX_VAL : Z := 0xFFFF.
Definition GORBN_SZWORD_BITS : Z := 16.
Definition GORBN_SZWORD_BITS_MINUS_ONE : Z := 15.

Definition GORBN_CMP_LARGER : Z := 1.
Definition GORBN_CMP_SMALLER : Z := -1.
Definition GORBN_CMP_EQUAL : Z := 0.

(** Conversion to [gorbn_t] ([uint16_t]) and to [gorbn_utmp_t] ([uint32_t]). *)
Definition gorbn_t (x : Z) : Z := x mod 2 ^ 16.
Definition gorbn_utmp_t (x : Z) : Z := x mod 2 ^ 32.

(** Conversion to [gorbn_stmp_t] ([int32_t]). *)
Definition gorbn_stmp_t (x : Z) : Z := (x + 2 ^ 31) mod 2 ^ 32 - 2 ^ 31.

Definition GORBN_ABS (val : Z) : Z := if 0 <=? val then val else - val.

(** C truth value of a comparison. *)
Definition c_bool (b : bool) : Z := if b then 1 else 0.

(** ** The bignum structure *)

Record gorbn_bignum : Type := mk_bignum {
  sign : Z;
  number : list Z
}.

(** Storage of a bignum that has been declared but not yet written.  C leaves
    its contents indeterminate; the routines below overwrite all of it before
    they read it (lemma [gorbn_init_eq]). *)
Definition gorbn_declared : gorbn_bignum :=
  {| sign := 0; number := replicate GORBN_SZARR 0 |}.

(** [x->number[i] = v] for an index below [GORBN_SZARR]. *)
Definition store (w : list Z) (i : nat) (v : Z) : list Z := <[i := gorbn_t v]> w.

(** [for (i = 0; i < n; i++) body] over a state [s]. *)
Definition for_up {St : Type} (n : nat) (body : nat → St → St) (s : St) : St :=
  foldl (λ s i, body i s) s (seq 0 n).

(** ** Calls that may not come back *)

Inductive gorbn_error : Type :=
| OutOfBounds    (* an access outside an array *)
| AssertFailed.  (* a [GORBN_ASSERT] that does not hold *)

Inductive result (A : Type) : Type :=
| Ok (x : A)
| Err (e : gorbn_error).
Arguments Ok {A} x.
Arguments Err {A} e.

#[global] Instance result_ret : MRet result := λ A x, Ok x.
#[global] Instance result_bind : MBind result := λ A B f c,
  match c with
  | Ok x => f x
  | Err e => Err e
  end.

(** A call reports a fault when it ends in [Err]. *)
Definition reports_fault {A : Type} (c : result A) : Prop := ∃ e, c = Err e.

Definition rd (w : list Z) (i : nat) : result Z :=
  match w !! i with
  | Some x => Ok x
  | None => Err OutOfBounds
  end.

Definition wr (w : list Z) (i : nat) (v : Z) : result (list Z) :=
  if decide (i < length w)%nat then Ok (<[i := gorbn_t v]> w) else Err OutOfBounds.

(** [for (i = start; i < start + count; i++) body], stopping at the first
    failure. *)
Fixpoint for_range {St : Type} (start count : nat) (body : nat → St → result St)
    (s : St) : result St :=
  match count with
  | O => Ok s
  | S count' => s' ← body start s; for_range (S start) count' body s'
  end.

(** ** Initialisation *)

Definition gorbn_init (n : gorbn_bignum) : gorbn_bignum :=
  {| sign := 1;
     number := for_up GORBN_SZARR (λ i w, store w i 0) (number n) |}.

Definition gorbn_copy (dst src : gorbn_bignum) : gorbn_bignum :=
  {| sign := sign src;
     number := for_up GORBN_SZARR (λ i w, store w i (number src !!! i)) (number dst) |}.

(** [i] arrives as a [gorbn_utmp_t]. *)
Definition gorbn_from_uint (n : gorbn_bignum) (i : Z) : gorbn_bignum :=
  let n := gorbn_init n in
  let i := gorbn_utmp_t i in
  let w := store (number n) 0 i in
  let w := store w 1 (Z.shiftr i 16) in
  {| sign := 1; number := w |}.

(** [i] arrives as a [gorbn_stmp_t]; [GORBN_ABS] of the least [int32_t] is
    outside the type, and undefined in C. *)
Definition gorbn_from_int (n : gorbn_bignum) (i : Z) : gorbn_bignum :=
  let n := gorbn_init n in
  let i := gorbn_stmp_t i in
  let s := if i <? 0 then -1 else 1 in
  let i := GORBN_ABS i in
  let w := store (number n) 0 i in
  let w := store w 1 (Z.shiftr i 16) in
  {| sign := s; number := w |}.

(** ** Bitwise routines *)

Definition gorbn_and (r a b : gorbn_bignum) : gorbn_bignum :=
  {| sign := sign r;
     number := for_up GORBN_SZARR
                 (λ i w, store w i (Z.lor (number a !!! i) (number b !!! i)))
                 (number r) |}.

Definition gorbn_or (r a b : gorbn_bignum) : gorbn_bignum :=
  {| sign := sign r;
     number := for_up GORBN_SZARR
                 (λ i w, store w i (Z.lxor (number a !!! i) (number b !!! i)))
                 (number r) |}.

Definition gorbn_xor (r a b : gorbn_bignum) : gorbn_bignum :=
  {| sign := sign r;
     number := for_up GORBN_SZARR
                 (λ i w, store w i (Z.land (number a !!! i) (number b !!! i)))
                 (number r) |}.

(** ** Comparison *)

(** The [do ... while (i != 0)] scan of [gorbn_cmp] and [gorbn_cmp_mod]: [i]
    is decremented first, so the words are examined from index [i - 1] down
    to index 0.  The scan is entered with [i = GORBN_SZARR], which is not 0. *)
Fixpoint cmp_scan (a b : list Z) (i : nat) : Z :=
  match i with
  | O => GORBN_CMP_EQUAL
  | S i' =>
      if b !!! i' <? a !!! i' then GORBN_CMP_LARGER
      else if a !!! i' <? b !!! i' then GORBN_CMP_SMALLER
      else cmp_scan a b i'
  end.

Definition gorbn_cmp_mod (a b : gorbn_bignum) : Z :=
  cmp_scan (number a) (number b) GORBN_SZARR.

(** The product [mod_res * a->sign] is a product of two [int]s in the source;
    it is taken in [Z] here, which is the same number for every sign field
    but the least [int] (for +1 and -1 in particular). *)
Definition gorbn_cmp (a b : gorbn_bignum) : Z :=
  if negb (sign a =? sign b) then
    if sign b <? sign a then GORBN_CMP_LARGER else GORBN_CMP_SMALLER
  else
    let mod_res := cmp_scan (number a) (number b) GORBN_SZARR in
    mod_res * sign a.

(** ** Digit count *)

(** The downward scan of [_gorbn_get_ndigits] from index [i - 1]. *)
Fixpoint ndigits_scan (w : list Z) (i : nat) : nat :=
  match i with
  | O => O
  | S i' => if negb (w !!! i' =? 0) then S i' else ndigits_scan w i'
  end.

Definition _gorbn_get_ndigits (a : gorbn_bignum) : nat :=
  ndigits_scan (number a) GORBN_SZARR.

(** ** Addition and subtraction *)

(** One round of the loop of the equal-signs branch; the state is the
    destination array and [carry]. *)
Definition add_round (a b : gorbn_bignum) (i : nat) (st : list Z * Z) : list Z * Z :=
  let '(w, carry) := st in
  let tmp1 := gorbn_utmp_t (number a !!! i + number b !!! i + carry) in
  let carry := c_bool (GORBN_MAX_VAL <? tmp1) in
  (store w i (Z.land tmp1 GORBN_MAX_VAL), carry).

(** One round of the loop of the other branch; the state is the destination
    array and [borrow]. *)
Definition sub_round (big low : gorbn_bignum) (i : nat) (st : list Z * Z) : list Z * Z :=
  let '(w, borrow) := st in
  let tmp1 := gorbn_utmp_t (number big !!! i + gorbn_utmp_t (GORBN_MAX_VAL + 1)) in
  let tmp2 := gorbn_utmp_t (number low !!! i + borrow) in
  let res := gorbn_utmp_t (tmp1 - tmp2) in
  (store w i (Z.land res GORBN_MAX_VAL), c_bool (res <=? GORBN_MAX_VAL)).

(** The loop of the equal-signs branch; its second component is the carry
    out of the highest word, which the routine does not look at. *)
Definition add_loop (dst a b : gorbn_bignum) : list Z * Z :=
  for_up GORBN_SZARR (add_round a b) (number dst, 0).

(** The loop of the other branch, with the last borrow. *)
Definition sub_loop (dst big low : gorbn_bignum) : list Z * Z :=
  for_up GORBN_SZARR (sub_round big low) (number dst, 0).

(** Both loops read index [i] of their operands before they write index [i]
    of the destination and never go back, and [gorbn_cmp_mod] runs before the
    first write: the value returned is also the one the C routine leaves when
    [dst] is one of the operands. *)
Definition _gorbn_internal_addition (dst a : gorbn_bignum) (a_sign : Z)
    (b : gorbn_bignum) (b_sign : Z) : gorbn_bignum :=
  if a_sign =? b_sign then
    let '(w, _) := add_loop dst a b in
    {| sign := a_sign; number := w |}
  else
    let comp_res := gorbn_cmp_mod a b in
    let '(big, low) := if 0 <=? comp_res then (a, b) else (b, a) in
    let '(w, _) := sub_loop dst big low in
    {| sign := if (0 <? a_sign) && (0 <=? comp_res) then 1 else -1;
       number := w |}.

(** The arithmetic entry points are [void]; their [GORBN_ASSERT]s only test
    that the pointers are not null, which holds of every embedded value. *)
Definition gorbn_add (r a b : gorbn_bignum) : result gorbn_bignum :=
  Ok (_gorbn_internal_addition r a (sign a) b (sign b)).

Definition gorbn_sub (r a b : gorbn_bignum) : result gorbn_bignum :=
  Ok (_gorbn_internal_addition r a (sign a) b (sign b * -1)).

(** ** Multiplication *)

(** The inner loop body of [gorbn_mul] (the branch that is compiled); the
    state is [buf.number] and [c]. *)
Definition mul_inner (a b : gorbn_bignum) (i j : nat) (st : list Z * Z)
    : result (list Z * Z) :=
  let '(w, c) := st in
  r_ij ← rd w (i + j);
  a_j ← rd (number a) j;
  b_i ← rd (number b) i;
  let uv := gorbn_utmp_t (r_ij + gorbn_utmp_t (a_j * b_i) + c) in
  w ← wr w (i + j) (Z.land uv GORBN_MAX_VAL);
  Ok (w, Z.land (Z.shiftr uv GORBN_SZWORD_BITS) GORBN_MAX_VAL).

Definition mul_outer (a b : gorbn_bignum) (a_ndigits : nat) (i : nat) (w : list Z)
    : result (list Z) :=
  '(w, c) ← for_range 0 a_ndigits (mul_inner a b i) (w, 0);
  wr w (i + a_ndigits + 1) c.

Definition gorbn_mul (r a b : gorbn_bignum) : result gorbn_bignum :=
  let a_ndigits := _gorbn_get_ndigits a in
  let b_ndigits := _gorbn_get_ndigits b in
  let buf := gorbn_init gorbn_declared in
  w ← for_range 0 b_ndigits (mul_outer a b a_ndigits) (number buf);
  Ok (gorbn_copy r {| sign := sign buf; number := w |}).

(** ** Division *)

(** The body of [gorbn_div] is empty: its only code sits under [#if 0]. *)
Definition gorbn_div (r a b : gorbn_bignum) : result gorbn_bignum := Ok r.

(** ** Byte buffers *)

(** The order of the two bytes of a word in memory is the machine's. *)
Inductive byte_order : Type := LittleEndian | BigEndian.

(** Which byte of its word (0 = low-order) lies at byte offset [k] of the
    array. *)
Definition byte_lane (bo : byte_order) (k : nat) : nat :=
  match bo with
  | LittleEndian => (k mod 2)%nat
  | BigEndian => (1 - k mod 2)%nat
  end.

Definition get_byte (w : Z) (lane : nat) : Z :=
  match lane with
  | O => w mod 256
  | _ => Z.shiftr w 8 mod 256
  end.

Definition set_byte (w : Z) (lane : nat) (v : Z) : Z :=
  match lane with
  | O => 256 * Z.shiftr w 8 + v
  | _ => 256 * v + w mod 256
  end.

(** [((uint8_t* )number)[k] = v]. *)
Definition wr_byte (bo : byte_order) (w : list Z) (k : nat) (v : Z) : result (list Z) :=
  x ← rd w (k / 2);
  wr w (k / 2) (set_byte x (byte_lane bo k) v).

(** [((gorbn_t* )data)[i] = v] on a buffer of bytes. *)
Definition wr_word (bo : byte_order) (data : list Z) (i : nat) (v : Z) : result (list Z) :=
  if decide (2 * i + 1 < length data)%nat then
    Ok (<[(2 * i + 1)%nat := get_byte v (byte_lane bo (2 * i + 1))]>
          (<[(2 * i)%nat := get_byte v (byte_lane bo (2 * i))]> data))
  else Err OutOfBounds.

(** [GORBN_ASSERT(cond)]: nothing unless [GOR_BIGNUM_ENABLE_ASSERTS] is
    defined, a trap on a false condition when it is. *)
Definition GORBN_ASSERT (enabled cond : bool) : result unit :=
  if enabled && negb cond then Err AssertFailed else Ok tt.

Definition gorbn_from_data (bo : byte_order) (n : gorbn_bignum) (data : list Z)
    (data_size : nat) : result gorbn_bignum :=
  let n := gorbn_init n in
  w ← for_range 0 data_size (λ i w, v ← rd data i; wr_byte bo w i v) (number n);
  Ok {| sign := sign n; number := w |}.

Definition gorbn_to_data (asserts : bool) (bo : byte_order) (data : list Z)
    (data_size : nat) (n : gorbn_bignum) : result (list Z) :=
  _ ← GORBN_ASSERT asserts (bool_decide (GORBN_SZARR * GORBN_SZWORD ≤ data_size)%nat);
  for_range 0 GORBN_SZARR (λ i d, wr_word bo d i (number n !!! i)) data.

(** ** What a bignum stands for *)

(** A word holds 16 bits, a byte 8. *)
Definition is_word (x : Z) : Prop := 0 ≤ x < 2 ^ 16.
Definition is_byte (x : Z) : Prop := 0 ≤ x < 256.

(** The words of a declared bignum: [GORBN_SZARR] of them, each a
    [gorbn_t]. *)
Definition wf_number (w : list Z) : Prop :=
  length w = GORBN_SZARR ∧ Forall is_word w.

(** The structure with a sign of the data model, +1 or -1. *)
Definition wf_bignum (a : gorbn_bignum) : Prop :=
  (sign a = 1 ∨ sign a = -1) ∧ wf_number (number a).

(** The magnitude a word array encodes: index 0 is the least significant
    digit in base 2^16. *)
Fixpoint magnitude (w : list Z) : Z :=
  match w with
  | [] => 0
  | x :: w' => x + 2 ^ 16 * magnitude w'
  end.

(** The signed integer a bignum encodes. *)
Definition gorbn_value (a : gorbn_bignum) : Z := sign a * magnitude (number a).

(** The largest magnitude that fits. *)
Definition gorbn_max : gorbn_bignum :=
  {| sign := 1; number := replicate GORBN_SZARR GORBN_MAX_VAL |}.

(** The weight of the digit at index [k]. *)
Definition radix_pow (k : nat) : Z := 2 ^ (16 * Z.of_nat k).


(** The invariant of the addition loop after [k] rounds, started on the
    destination words [w0]. *)
Record add_inv (a b : gorbn_bignum) (w0 : list Z) (k : nat) (st : list Z * Z) : Prop := {
  add_inv_length : length st.1 = length w0;
  add_inv_carry : st.2 = 0 ∨ st.2 = 1;
  add_inv_words : Forall is_word (take k st.1);
  add_inv_sum :
    magnitude (take k st.1) + radix_pow k * st.2
    = magnitude (take k (number a)) + magnitude (take k (number b))
}.


(** The invariant of the subtraction loop after [k] rounds. *)
Record sub_inv (big low : gorbn_bignum) (w0 : list Z) (k : nat) (st : list Z * Z) : Prop := {
  sub_inv_length : length st.1 = length w0;
  sub_inv_borrow : st.2 = 0 ∨ st.2 = 1;
  sub_inv_words : Forall is_word (take k st.1);
  sub_inv_diff :
    magnitude (take k st.1)
    = magnitude (take k (number big)) - magnitude (take k (number low))
      + radix_pow k * st.2
}.

(** ** The word array as bytes *)

(** The two bytes a word occupies, in memory order. *)
Definition word_bytes (bo : byte_order) (x : Z) : list Z :=
  [get_byte x (byte_lane bo 0); get_byte x (byte_lane bo 1)].

(** The bytes a word array occupies. *)
Fixpoint bytes_of (bo : byte_order) (w : list Z) : list Z :=
  match w with
  | [] => []
  | x :: w' => word_bytes bo x ++ bytes_of bo w'
  end.

(** ** Shifts and the zero test *)

(** [for (i = lo + count - 1; i >= lo; i--) body] over a state [s]. *)
Fixpoint for_down {St : Type} (lo count : nat) (body : nat → St → St) (s : St) : St :=
  match count with
  | O => s
  | S count' => for_down lo count' body (body (lo + count')%nat s)
  end.

(** The routines below work in place: every round reads the array as the
    rounds before it left it. *)
Definition lshift_round (i : nat) (w : list Z) : list Z :=
  store w i (Z.lor (Z.shiftl (w !!! i) 1)
               (Z.shiftr (w !!! (i - 1)%nat) GORBN_SZWORD_BITS_MINUS_ONE)).

Definition _gorbn_lshift_one_bit (a : gorbn_bignum) : gorbn_bignum :=
  let w := for_down 1 (GORBN_SZARR - 1) lshift_round (number a) in
  {| sign := sign a; number := store w 0 (Z.shiftl (w !!! 0%nat) 1) |}.

Definition _gorbn_rshift_one_bit (a : gorbn_bignum) : gorbn_bignum :=
  let w := for_up (GORBN_SZARR - 1)
             (λ i w, store w i (Z.lor (Z.shiftr (w !!! i) 1)
                                  (Z.shiftl (w !!! (i + 1)%nat) GORBN_SZWORD_BITS_MINUS_ONE)))
             (number a) in
  {| sign := sign a;
     number := store w (GORBN_SZARR - 1) (Z.shiftr (w !!! (GORBN_SZARR - 1)%nat) 1) |}.

(** [nwords] is not negative ([GORBN_ASSERT(nwords >= 0)]); the first loop
    runs from [GORBN_SZARR - 1] down to [nwords], the second from where the
    first stopped down to 0. *)
Definition _gorbn_lshift_word (a : gorbn_bignum) (nwords : nat) : gorbn_bignum :=
  let w := for_down nwords (GORBN_SZARR - nwords)
             (λ i w, store w i (w !!! (i - nwords)%nat)) (number a) in
  let w := for_down 0 (min nwords GORBN_SZARR) (λ i w, store w i 0) w in
  {| sign := sign a; number := w |}.

(** [nwords] is not negative; the first loop runs while [i < nwords] and
    reads index [i + nwords], the second goes on from [i = nwords] to the end
    of the array. *)
Definition _gorbn_rshift_word (a : gorbn_bignum) (nwords : nat) : result gorbn_bignum :=
  w ← for_range 0 nwords (λ i w, v ← rd w (i + nwords); wr w i v) (number a);
  w ← for_range nwords (GORBN_SZARR - nwords) (λ i w, wr w i 0) w;
  Ok {| sign := sign a; number := w |}.

(** The scan of [gorbn_is_zero] from index [i] over [count] words, which
    stops at the first word that is not 0. *)
Fixpoint is_zero_scan (w : list Z) (i count : nat) : Z :=
  match count with
  | O => 1
  | S count' => if negb (w !!! i =? 0) then 0 else is_zero_scan w (S i) count'
  end.

Definition gorbn_is_zero (a : gorbn_bignum) : Z :=
  is_zero_scan (number a) 0 GORBN_SZARR.

(** The integer a buffer of bytes stands for, least significant byte
    first. *)
Fixpoint le_bytes_value (bs : list Z) : Z :=
  match bs with
  | [] => 0
  | x :: bs' => x + 256 * le_bytes_value bs'
  end.

(** ** Decision procedures for the well-formedness predicates *)

#[global] Instance is_word_dec (x : Z) : Decision (is_word x).
Proof. unfold is_word. apply _. Defined.

#[global] Instance is_byte_dec (x : Z) : Decision (is_byte x).
Proof. unfold is_byte. apply _. Defined.

#[global] Instance wf_number_dec (w : list Z) : Decision (wf_number w).
Proof. unfold wf_number. apply _. Defined.

#[global] Instance wf_bignum_dec (a : gorbn_bignum) : Decision (wf_bignum a).
Proof. unfold wf_bignum. apply _. Defined.

Ltac by_evaluation :=
  match goal with |- ?P => apply (@bool_decide_unpack P _) end; vm_compute; exact I.

(** ** Loops *)

Lemma for_up_S {St : Type} (n : nat) (body : nat → St → St) (s : St) :
  for_up (S n) body s = body n (for_up n body s).
Proof.
  unfold for_up. rewrite seq_S, foldl_app. reflexivity.
Qed.

Lemma for_up_ind {St : Type} (P : nat → St → Prop) (body : nat → St → St)
    (s : St) (n : nat) :
  P O s →
  (∀ k t, (k < n)%nat → P k t → P (S k) (body k t)) →
  P n (for_up n body s).
Proof.
  intros H0 Hstep.
  assert (Hall : ∀ k, (k ≤ n)%nat → P k (for_up k body s)).
  { induction k as [|k IH]; intros Hk; [exact H0|].
    rewrite for_up_S. apply Hstep; [lia | apply IH; lia]. }
  apply Hall. lia.
Qed.

(** A loop that stores [f i] at every index below [n]. *)
Lemma for_up_store (f : nat → Z) (w : list Z) (n : nat) :
  (n ≤ length w)%nat →
  for_up n (λ i w, store w i (f i)) w
  = ((λ i, gorbn_t (f i)) <$> seq 0 n) ++ drop n w.
Proof.
  induction n as [|n IH]; intros Hn.
  - reflexivity.
  - rewrite for_up_S, IH by lia. unfold store.
    destruct (lookup_lt_is_Some_2 w n ltac:(lia)) as [x Hx].
    rewrite (drop_S w x n Hx), seq_S, fmap_app, <- app_assoc.
    rewrite insert_app_r_alt by (rewrite length_fmap, length_seq; lia).
    rewrite length_fmap, length_seq, Nat.sub_diag. reflexivity.
Qed.

Lemma for_up_store_full (f : nat → Z) (w : list Z) :
  length w = GORBN_SZARR →
  for_up GORBN_SZARR (λ i w, store w i (f i)) w
  = (λ i, gorbn_t (f i)) <$> seq 0 GORBN_SZARR.
Proof.
  intros Hw. rewrite for_up_store by lia.
  rewrite drop_ge by lia. apply app_nil_r.
Qed.

Lemma gorbn_init_eq (n : gorbn_bignum) :
  length (number n) = GORBN_SZARR →
  gorbn_init n = {| sign := 1; number := replicate GORBN_SZARR 0 |}.
Proof.
  intros Hn. unfold gorbn_init. f_equal.
  rewrite (for_up_store_full (λ _, 0)) by exact Hn. reflexivity.
Qed.

(** ** Words and magnitudes *)

Lemma radix_pow_0 : radix_pow 0 = 1.
Proof. reflexivity. Qed.

Lemma radix_pow_S (k : nat) : radix_pow (S k) = 2 ^ 16 * radix_pow k.
Proof.
  unfold radix_pow. rewrite Nat2Z.inj_succ, Z.mul_succ_r, Z.pow_add_r by lia.
  apply Z.mul_comm.
Qed.

Lemma radix_pow_pos (k : nat) : 0 < radix_pow k.
Proof. unfold radix_pow. apply Z.pow_pos_nonneg; lia. Qed.

Lemma magnitude_app (l1 l2 : list Z) :
  magnitude (l1 ++ l2) = magnitude l1 + radix_pow (length l1) * magnitude l2.
Proof.
  induction l1 as [|x l1 IH]; cbn [app magnitude length].
  - rewrite radix_pow_0. lia.
  - rewrite IH, radix_pow_S. ring.
Qed.

Lemma magnitude_bound (l : list Z) :
  Forall is_word l → 0 ≤ magnitude l < radix_pow (length l).
Proof.
  induction 1 as [|x l Hx _ IH]; cbn [magnitude length].
  - rewrite radix_pow_0. lia.
  - rewrite radix_pow_S. unfold is_word in Hx. nia.
Qed.

Lemma magnitude_replicate_0 (n : nat) : magnitude (replicate n 0) = 0.
Proof. induction n as [|n IH]; cbn [replicate magnitude]; lia. Qed.

Lemma magnitude_take_S (l : list Z) (k : nat) :
  (k < length l)%nat →
  magnitude (take (S k) l) = magnitude (take k l) + radix_pow k * (l !!! k).
Proof.
  intros Hk.
  rewrite (take_S_r l k (l !!! k)) by (apply list_lookup_lookup_total_lt; lia).
  rewrite magnitude_app, length_take_le by lia.
  cbn [magnitude]. ring.
Qed.

Lemma is_word_lookup_total (l : list Z) (k : nat) :
  Forall is_word l → is_word (l !!! k).
Proof.
  intros Hl. destruct (decide (k < length l)%nat) as [Hk|Hk].
  - eapply Forall_lookup_1; [exact Hl|]. apply list_lookup_lookup_total_lt, Hk.
  - rewrite list_lookup_total_alt, lookup_ge_None_2 by lia.
    unfold is_word. simpl. lia.
Qed.

Lemma land_max_val (x : Z) : Z.land x GORBN_MAX_VAL = x mod 2 ^ 16.
Proof. change GORBN_MAX_VAL with (Z.ones 16). apply Z.land_ones. lia. Qed.

Lemma gorbn_t_word (x : Z) : is_word x → gorbn_t x = x.
Proof. unfold is_word, gorbn_t. intros Hx. apply Z.mod_small. exact Hx. Qed.

Lemma is_word_gorbn_t (x : Z) : is_word (gorbn_t x).
Proof. unfold is_word, gorbn_t. apply Z.mod_pos_bound. lia. Qed.

(** Storing at index [k] extends the prefix of length [k] by the word
    stored. *)
Lemma take_S_store (w : list Z) (k : nat) (v : Z) :
  (k < length w)%nat → take (S k) (store w k v) = take k w ++ [gorbn_t v].
Proof.
  intros Hk. unfold store.
  rewrite (take_S_r _ k (gorbn_t v)) by (apply list_lookup_insert_eq; exact Hk).
  rewrite take_insert_ge by lia. reflexivity.
Qed.

(** ** The addition loop *)

Lemma add_round_inv (a b : gorbn_bignum) (w0 : list Z) (k : nat) (st : list Z * Z) :
  Forall is_word (number a) → Forall is_word (number b) →
  (k < length w0)%nat → (k < length (number a))%nat → (k < length (number b))%nat →
  add_inv a b w0 k st → add_inv a b w0 (S k) (add_round a b k st).
Proof.
  intros Ha Hb Hk Hka Hkb [Hlen Hc Hw Hsum]. destruct st as [w c]. simpl in *.
  pose proof (is_word_lookup_total _ k Ha) as Hak.
  pose proof (is_word_lookup_total _ k Hb) as Hbk.
  unfold is_word in Hak, Hbk.
  set (x := number a !!! k) in *. set (y := number b !!! k) in *.
  assert (Htmp : gorbn_utmp_t (x + y + c) = x + y + c).
  { unfold gorbn_utmp_t. apply Z.mod_small. lia. }
  unfold add_round. rewrite Htmp, land_max_val.
  pose proof (Z.mod_pos_bound (x + y + c) (2 ^ 16) ltac:(lia)) as Hmod.
  pose proof (Z.div_mod (x + y + c) (2 ^ 16) ltac:(lia)) as Hdm.
  assert (Hq : 0 ≤ (x + y + c) / 2 ^ 16 ≤ 1).
  { split; [apply Z.div_pos; lia|].
    apply Z.lt_succ_r, Z.div_lt_upper_bound; lia. }
  assert (Hcarry : c_bool (GORBN_MAX_VAL <? x + y + c) = (x + y + c) / 2 ^ 16).
  { unfold c_bool, GORBN_MAX_VAL. destruct (Z.ltb_spec 65535 (x + y + c)); lia. }
  rewrite Hcarry. split; simpl.
  - unfold store. rewrite length_insert. exact Hlen.
  - lia.
  - rewrite take_S_store by lia. apply Forall_app_2; [exact Hw|].
    apply Forall_singleton, is_word_gorbn_t.
  - rewrite take_S_store by lia.
    rewrite magnitude_app, length_take_le by lia. cbn [magnitude].
    rewrite gorbn_t_word by exact Hmod.
    rewrite !magnitude_take_S by lia. fold x y. rewrite radix_pow_S.
    pose proof (radix_pow_pos k). nia.
Qed.

Lemma add_loop_inv (dst a b : gorbn_bignum) :
  length (number dst) = GORBN_SZARR →
  wf_number (number a) → wf_number (number b) →
  add_inv a b (number dst) GORBN_SZARR (add_loop dst a b).
Proof.
  intros Hd [Hla Ha] [Hlb Hb]. unfold add_loop.
  apply (for_up_ind (add_inv a b (number dst))).
  - split; simpl; [reflexivity | lia | constructor | rewrite radix_pow_0; lia].
  - intros k t Hk Ht. apply add_round_inv; try assumption; lia.
Qed.

(** ** The subtraction loop *)

Lemma sub_round_inv (big low : gorbn_bignum) (w0 : list Z) (k : nat) (st : list Z * Z) :
  Forall is_word (number big) → Forall is_word (number low) →
  (k < length w0)%nat → (k < length (number big))%nat → (k < length (number low))%nat →
  sub_inv big low w0 k st → sub_inv big low w0 (S k) (sub_round big low k st).
Proof.
  intros Ha Hb Hk Hka Hkb [Hlen Hc Hw Hdiff]. destruct st as [w c]. simpl in *.
  pose proof (is_word_lookup_total _ k Ha) as Hak.
  pose proof (is_word_lookup_total _ k Hb) as Hbk.
  unfold is_word in Hak, Hbk.
  set (x := number big !!! k) in *. set (y := number low !!! k) in *.
  unfold sub_round. fold x y.
  assert (Ht1 : gorbn_utmp_t (x + gorbn_utmp_t (GORBN_MAX_VAL + 1)) = x + 2 ^ 16).
  { unfold gorbn_utmp_t, GORBN_MAX_VAL. rewrite (Z.mod_small (65535 + 1)) by lia.
    apply Z.mod_small. lia. }
  assert (Ht2 : gorbn_utmp_t (y + c) = y + c).
  { unfold gorbn_utmp_t. apply Z.mod_small. lia. }
  rewrite Ht1, Ht2.
  assert (Hres : gorbn_utmp_t (x + 2 ^ 16 - (y + c)) = x + 2 ^ 16 - (y + c)).
  { unfold gorbn_utmp_t. apply Z.mod_small. lia. }
  rewrite Hres, land_max_val. set (res := x + 2 ^ 16 - (y + c)) in *.
  pose proof (Z.mod_pos_bound res (2 ^ 16) ltac:(lia)) as Hmod.
  pose proof (Z.div_mod res (2 ^ 16) ltac:(lia)) as Hdm.
  assert (Hq : 0 ≤ res / 2 ^ 16 ≤ 1).
  { split; [apply Z.div_pos; lia|].
    apply Z.lt_succ_r, Z.div_lt_upper_bound; lia. }
  assert (Hborrow : c_bool (res <=? GORBN_MAX_VAL) = 1 - res / 2 ^ 16).
  { unfold c_bool, GORBN_MAX_VAL. destruct (Z.leb_spec res 65535); lia. }
  rewrite Hborrow. split; simpl.
  - unfold store. rewrite length_insert. exact Hlen.
  - lia.
  - rewrite take_S_store by lia. apply Forall_app_2; [exact Hw|].
    apply Forall_singleton, is_word_gorbn_t.
  - rewrite take_S_store by lia.
    rewrite magnitude_app, length_take_le by lia. cbn [magnitude].
    rewrite gorbn_t_word by exact Hmod.
    rewrite !magnitude_take_S by lia. fold x y. rewrite radix_pow_S.
    pose proof (radix_pow_pos k). nia.
Qed.

Lemma sub_loop_inv (dst big low : gorbn_bignum) :
  length (number dst) = GORBN_SZARR →
  wf_number (number big) → wf_number (number low) →
  sub_inv big low (number dst) GORBN_SZARR (sub_loop dst big low).
Proof.
  intros Hd [Hla Ha] [Hlb Hb]. unfold sub_loop.
  apply (for_up_ind (sub_inv big low (number dst))).
  - split; simpl; [reflexivity | lia | constructor | rewrite radix_pow_0; lia].
  - intros k t Hk Ht. apply sub_round_inv; try assumption; lia.
Qed.

(** With the larger magnitude first the loop ends without a borrow and
    leaves the difference of the magnitudes. *)
Lemma sub_loop_spec (dst big low : gorbn_bignum) :
  length (number dst) = GORBN_SZARR →
  wf_number (number big) → wf_number (number low) →
  magnitude (number low) ≤ magnitude (number big) →
  wf_number (sub_loop dst big low).1 ∧
  magnitude (sub_loop dst big low).1
  = magnitude (number big) - magnitude (number low).
Proof.
  intros Hd Ha Hb Hle.
  destruct (sub_loop_inv dst big low Hd Ha Hb) as [Hlen Hc Hw Hdiff].
  destruct Ha as [Hla Ha], Hb as [Hlb Hb].
  rewrite !take_ge in Hdiff by lia. rewrite take_ge in Hw by lia.
  pose proof (magnitude_bound _ Hw) as Hm. rewrite Hlen, Hd in Hm.
  pose proof (magnitude_bound _ Ha) as Hma. rewrite Hla in Hma.
  pose proof (magnitude_bound _ Hb) as Hmb. rewrite Hlb in Hmb.
  split; [split; [lia | exact Hw]|].
  destruct Hc as [Hc|Hc]; rewrite Hc in Hdiff; lia.
Qed.

(** ** The comparison scan *)

Lemma cmp_scan_refl (a : list Z) (k : nat) : cmp_scan a a k = GORBN_CMP_EQUAL.
Proof.
  induction k as [|k IH]; cbn [cmp_scan]; [reflexivity|].
  rewrite Z.ltb_irrefl. exact IH.
Qed.

Lemma magnitude_take_bound (l : list Z) (k : nat) :
  Forall is_word l → (k ≤ length l)%nat → 0 ≤ magnitude (take k l) < radix_pow k.
Proof.
  intros Hl Hk.
  pose proof (magnitude_bound (take k l) (Forall_take _ k l Hl)) as H.
  rewrite length_take_le in H by lia. exact H.
Qed.

(** The scan from index [k - 1] down orders the two prefixes of length [k]
    as their magnitudes are ordered. *)
Lemma cmp_scan_spec (a b : list Z) (k : nat) :
  Forall is_word a → Forall is_word b →
  (k ≤ length a)%nat → (k ≤ length b)%nat →
  cmp_scan a b k =
    match magnitude (take k a) ?= magnitude (take k b) with
    | Eq => GORBN_CMP_EQUAL
    | Lt => GORBN_CMP_SMALLER
    | Gt => GORBN_CMP_LARGER
    end.
Proof.
  intros Ha Hb. induction k as [|k IH]; intros Hka Hkb.
  - reflexivity.
  - cbn [cmp_scan]. rewrite !magnitude_take_S by lia.
    pose proof (magnitude_take_bound a k Ha ltac:(lia)) as Hma.
    pose proof (magnitude_take_bound b k Hb ltac:(lia)) as Hmb.
    pose proof (radix_pow_pos k) as HR.
    set (x := a !!! k). set (y := b !!! k).
    set (ma := magnitude (take k a)) in *. set (mb := magnitude (take k b)) in *.
    destruct (Z.ltb_spec y x) as [Hyx|Hyx].
    { replace (ma + radix_pow k * x ?= mb + radix_pow k * y) with Gt; [reflexivity|].
      symmetry. apply Z.compare_gt_iff. nia. }
    destruct (Z.ltb_spec x y) as [Hxy|Hxy].
    { replace (ma + radix_pow k * x ?= mb + radix_pow k * y) with Lt; [reflexivity|].
      symmetry. apply Z.compare_lt_iff. nia. }
    assert (x = y) as -> by lia.
    rewrite (Z.add_comm ma), (Z.add_comm mb), Z.add_compare_mono_l. apply IH; lia.
Qed.

Lemma gorbn_cmp_mod_spec (a b : gorbn_bignum) :
  wf_number (number a) → wf_number (number b) →
  gorbn_cmp_mod a b =
    match magnitude (number a) ?= magnitude (number b) with
    | Eq => GORBN_CMP_EQUAL
    | Lt => GORBN_CMP_SMALLER
    | Gt => GORBN_CMP_LARGER
    end.
Proof.
  intros [Hla Ha] [Hlb Hb]. unfold gorbn_cmp_mod.
  rewrite cmp_scan_spec by (assumption || lia).
  rewrite !take_ge by lia. reflexivity.
Qed.

Lemma gorbn_cmp_refl (a : gorbn_bignum) : gorbn_cmp a a = GORBN_CMP_EQUAL.
Proof.
  unfold gorbn_cmp. rewrite Z.eqb_refl. cbn [negb].
  rewrite cmp_scan_refl. reflexivity.
Qed.

Lemma gorbn_cmp_spec (a b : gorbn_bignum) :
  wf_bignum a → wf_bignum b →
  ¬ (magnitude (number a) = 0 ∧ magnitude (number b) = 0 ∧ sign a ≠ sign b) →
  gorbn_cmp a b =
    match gorbn_value a ?= gorbn_value b with
    | Eq => GORBN_CMP_EQUAL
    | Lt => GORBN_CMP_SMALLER
    | Gt => GORBN_CMP_LARGER
    end.
Proof.
  intros [Hsa Hwa] [Hsb Hwb] Hz.
  pose proof (gorbn_cmp_mod_spec a b Hwa Hwb) as Hmod.
  unfold gorbn_cmp_mod in Hmod.
  pose proof (magnitude_bound _ (proj2 Hwa)) as [Hma _].
  pose proof (magnitude_bound _ (proj2 Hwb)) as [Hmb _].
  unfold gorbn_cmp, gorbn_value. rewrite Hmod. clear Hmod.
  unfold GORBN_CMP_EQUAL, GORBN_CMP_SMALLER, GORBN_CMP_LARGER.
  set (ma := magnitude (number a)) in *. set (mb := magnitude (number b)) in *.
  destruct Hsa as [Ea|Ea], Hsb as [Eb|Eb]; rewrite Ea, Eb in *; simpl negb; cbv iota.
  - rewrite !Z.mul_1_l. destruct (ma ?= mb); reflexivity.
  - change (-1 <? 1) with true. cbv iota.
    replace (1 * ma ?= -1 * mb) with Gt; [reflexivity|].
    symmetry. apply Z.compare_gt_iff.
    assert (ma ≠ 0 ∨ mb ≠ 0) by (destruct (decide (ma = 0)), (decide (mb = 0)); try lia;
      exfalso; apply Hz; repeat split; auto; lia).
    lia.
  - change (1 <? -1) with false. cbv iota.
    replace (-1 * ma ?= 1 * mb) with Lt; [reflexivity|].
    symmetry. apply Z.compare_lt_iff.
    assert (ma ≠ 0 ∨ mb ≠ 0) by (destruct (decide (ma = 0)), (decide (mb = 0)); try lia;
      exfalso; apply Hz; repeat split; auto; lia).
    lia.
  - destruct (Z.compare_spec ma mb) as [Heq|Hlt|Hgt].
    + rewrite Heq, Z.compare_refl. reflexivity.
    + replace (-1 * ma ?= -1 * mb) with Gt; [reflexivity|].
      symmetry. apply Z.compare_gt_iff. lia.
    + replace (-1 * ma ?= -1 * mb) with Lt; [reflexivity|].
      symmetry. apply Z.compare_lt_iff. lia.
Qed.

(** ** Sums of operands of different signs *)

Lemma magnitude_inj (l1 l2 : list Z) :
  Forall is_word l1 → Forall is_word l2 → length l1 = length l2 →
  magnitude l1 = magnitude l2 → l1 = l2.
Proof.
  intros H1. revert l2. induction H1 as [|x l1 Hx _ IH]; intros l2 H2 Hlen Hmag.
  - destruct l2; [reflexivity | discriminate Hlen].
  - destruct H2 as [|y l2 Hy H2]; [discriminate Hlen|].
    cbn [magnitude] in Hmag. unfold is_word in Hx, Hy.
    assert (x = y ∧ magnitude l1 = magnitude l2) as [-> Hm] by lia.
    f_equal. apply IH; [exact H2 | | exact Hm]. simpl in Hlen. lia.
Qed.

(** What [_gorbn_internal_addition] leaves when the effective signs differ:
    the difference of the magnitudes, and sign +1 only if [a_sign] is
    positive and the magnitude of [a] is not the smaller one. *)
Lemma _gorbn_internal_addition_differ (dst a b : gorbn_bignum) (a_sign b_sign : Z) :
  length (number dst) = GORBN_SZARR →
  wf_number (number a) → wf_number (number b) →
  a_sign ≠ b_sign →
  wf_number (number (_gorbn_internal_addition dst a a_sign b b_sign)) ∧
  magnitude (number (_gorbn_internal_addition dst a a_sign b b_sign))
  = Z.abs (magnitude (number a) - magnitude (number b)) ∧
  sign (_gorbn_internal_addition dst a a_sign b b_sign)
  = if (0 <? a_sign) && (magnitude (number b) <=? magnitude (number a))
    then 1 else -1.
Proof.
  intros Hd Ha Hb Hs. unfold _gorbn_internal_addition.
  rewrite (proj2 (Z.eqb_neq a_sign b_sign) Hs).
  rewrite (gorbn_cmp_mod_spec a b Ha Hb).
  destruct (Z.compare_spec (magnitude (number a)) (magnitude (number b)))
    as [Heq|Hlt|Hgt].
  - change (0 <=? GORBN_CMP_EQUAL) with true. cbv iota.
    destruct (sub_loop_spec dst a b Hd Ha Hb ltac:(lia)) as [Hwf Hmag].
    destruct (sub_loop dst a b) as [w c]. simpl in *.
    rewrite (proj2 (Z.leb_le _ _)) by lia. repeat split; try apply Hwf. lia.
  - change (0 <=? GORBN_CMP_SMALLER) with false. cbv iota.
    destruct (sub_loop_spec dst b a Hd Hb Ha ltac:(lia)) as [Hwf Hmag].
    destruct (sub_loop dst b a) as [w c]. simpl in *.
    rewrite (proj2 (Z.leb_gt _ _)) by lia. rewrite andb_false_r.
    repeat split; try apply Hwf. lia.
  - change (0 <=? GORBN_CMP_LARGER) with true. cbv iota.
    destruct (sub_loop_spec dst a b Hd Ha Hb ltac:(lia)) as [Hwf Hmag].
    destruct (sub_loop dst a b) as [w c]. simpl in *.
    rewrite (proj2 (Z.leb_le _ _)) by lia. repeat split; try apply Hwf. lia.
Qed.

(** ** Sums of operands of the same sign *)

(** The carry out of the highest word is 1 exactly when the sum of the
    magnitudes does not fit in [GORBN_SZARR] words. *)
Lemma add_loop_carry_out (dst a b : gorbn_bignum) :
  length (number dst) = GORBN_SZARR →
  wf_number (number a) → wf_number (number b) →
  (add_loop dst a b).2 ≠ 0 ↔
  radix_pow GORBN_SZARR ≤ magnitude (number a) + magnitude (number b).
Proof.
  intros Hd Ha Hb.
  destruct (add_loop_inv dst a b Hd Ha Hb) as [Hlen Hc Hw Hsum].
  destruct Ha as [Hla Ha], Hb as [Hlb Hb].
  rewrite !take_ge in Hsum by lia. rewrite take_ge in Hw by lia.
  pose proof (magnitude_bound _ Hw) as Hm. rewrite Hlen, Hd in Hm.
  pose proof (radix_pow_pos GORBN_SZARR). destruct Hc as [Hc|Hc]; rewrite Hc in *; lia.
Qed.

Lemma gorbn_add_same_sign (r a b : gorbn_bignum) :
  length (number r) = GORBN_SZARR →
  wf_number (number a) → wf_number (number b) →
  sign a = sign b →
  ∃ r', gorbn_add r a b = Ok r' ∧ sign r' = sign a ∧ wf_number (number r') ∧
        magnitude (number r')
        = (magnitude (number a) + magnitude (number b)) mod radix_pow GORBN_SZARR.
Proof.
  intros Hr Ha Hb Hs.
  destruct (add_loop_inv r a b Hr Ha Hb) as [Hlen Hc Hw Hsum].
  unfold gorbn_add, _gorbn_internal_addition.
  rewrite Hs, Z.eqb_refl. destruct (add_loop r a b) as [w c]. simpl in *.
  eexists. split; [reflexivity|]. cbn [sign number].
  rewrite take_ge in Hw by lia. rewrite take_ge in Hsum by lia.
  destruct Ha as [Hla Ha], Hb as [Hlb Hb]. rewrite !take_ge in Hsum by lia.
  pose proof (magnitude_bound _ Hw) as Hm. rewrite Hlen, Hr in Hm.
  split; [reflexivity|]. split; [split; [lia | exact Hw]|].
  rewrite <- Hsum. pose proof (radix_pow_pos GORBN_SZARR) as HR.
  destruct Hc as [-> | ->].
  - apply Z.mod_unique with (q := 0); lia.
  - apply Z.mod_unique with (q := 1); lia.
Qed.

(** X13.  Adding and then subtracting the same operand gives the first
    operand back, sign and words, when both operands have the same sign and
    the sum of the magnitudes fits in [GORBN_SZARR] words. *)
Lemma gorbn_add_sub_same_sign (d d' a b : gorbn_bignum) :
  length (number d) = GORBN_SZARR → length (number d') = GORBN_SZARR →
  wf_bignum a → wf_number (number b) →
  sign a = sign b →
  magnitude (number a) + magnitude (number b) < radix_pow GORBN_SZARR →
  (r ← gorbn_add d a b; gorbn_sub d' r b) = Ok a.
Proof.
  intros Hd Hd' [Hsa Ha] Hb Hs Hfit.
  destruct (gorbn_add_same_sign d a b Hd Ha Hb Hs) as (r & Hadd & Hsr & Hr & Hmr).
  rewrite Hadd. cbn [mbind result_bind]. unfold gorbn_sub. f_equal.
  pose proof (magnitude_bound _ (proj2 Ha)) as Hma.
  pose proof (magnitude_bound _ (proj2 Hb)) as Hmb.
  rewrite Z.mod_small in Hmr by lia.
  assert (Hne : sign r ≠ sign b * -1) by lia.
  destruct (_gorbn_internal_addition_differ d' r b (sign r) (sign b * -1)
              Hd' Hr Hb Hne) as (Hwf & Hmag & Hsign).
  destruct (_gorbn_internal_addition d' r (sign r) b (sign b * -1)) as [s' w'].
  destruct a as [sa wa]. simpl in *. f_equal.
  - rewrite Hsign, (proj2 (Z.leb_le _ _)) by lia. rewrite andb_true_r, Hsr.
    destruct Hsa as [-> | ->]; reflexivity.
  - apply magnitude_inj; [apply Hwf | apply Ha | |lia].
    rewrite (proj1 Hwf), (proj1 Ha). reflexivity.
Qed.

(** ** Checked loops *)

Lemma for_range_inv {St : Type} (P : St → Prop) (body : nat → St → result St)
    (count start : nat) (s : St) :
  P s →
  (∀ i t, (start ≤ i < start + count)%nat → P t → ∃ t', body i t = Ok t' ∧ P t') →
  ∃ t, for_range start count body s = Ok t ∧ P t.
Proof.
  revert start s. induction count as [|count IH]; intros start s Hs Hbody.
  - exists s. split; [reflexivity | exact Hs].
  - destruct (Hbody start s ltac:(lia) Hs) as (s' & Hs' & HP).
    cbn [for_range]. rewrite Hs'. cbn.
    apply IH; [exact HP|]. intros i t Hi. apply Hbody. lia.
Qed.

Lemma for_range_snoc {St : Type} (body : nat → St → result St)
    (count start : nat) (s : St) :
  for_range start (S count) body s
  = t ← for_range start count body s; body (start + count)%nat t.
Proof.
  revert start s. induction count as [|count IH]; intros start s.
  - cbn. rewrite Nat.add_0_r. destruct (body start s); reflexivity.
  - change (for_range start (S (S count)) body s)
      with (s' ← body start s; for_range (S start) (S count) body s').
    cbn [for_range]. destruct (body start s) as [s'|e]; cbn; [|reflexivity].
    rewrite <- Nat.add_succ_comm. apply IH.
Qed.

Lemma rd_lt (w : list Z) (i : nat) :
  (i < length w)%nat → rd w i = Ok (w !!! i).
Proof.
  intros Hi. unfold rd. rewrite list_lookup_lookup_total_lt by exact Hi. reflexivity.
Qed.

Lemma wr_lt (w : list Z) (i : nat) (v : Z) :
  (i < length w)%nat → wr w i v = Ok (<[i := gorbn_t v]> w).
Proof. intros Hi. unfold wr. rewrite decide_True by exact Hi. reflexivity. Qed.

Lemma wr_ge (w : list Z) (i : nat) (v : Z) :
  (length w ≤ i)%nat → wr w i v = Err OutOfBounds.
Proof. intros Hi. unfold wr. rewrite decide_False by lia. reflexivity. Qed.

(** ** The multiplication loops *)

Lemma ndigits_scan_le (w : list Z) (i : nat) : (ndigits_scan w i ≤ i)%nat.
Proof.
  induction i as [|i IH]; cbn [ndigits_scan]; [lia|].
  destruct (negb (w !!! i =? 0)); lia.
Qed.

Lemma mul_inner_in_bounds (a b : gorbn_bignum) (i j : nat) (w : list Z) (c : Z) :
  (i + j < length w)%nat →
  (j < length (number a))%nat → (i < length (number b))%nat →
  ∃ w' c', mul_inner a b i j (w, c) = Ok (w', c') ∧ length w' = length w.
Proof.
  intros Hij Hj Hi. unfold mul_inner.
  rewrite !rd_lt by assumption. cbn.
  rewrite wr_lt by assumption. cbn.
  eexists _, _. split; [reflexivity|]. apply length_insert.
Qed.

Lemma mul_outer_in_bounds (a b : gorbn_bignum) (a_ndigits i : nat) (w : list Z) :
  (a_ndigits ≤ length (number a))%nat → (i < length (number b))%nat →
  (i + a_ndigits + 1 < length w)%nat →
  ∃ w', mul_outer a b a_ndigits i w = Ok w' ∧ length w' = length w.
Proof.
  intros Ha Hi Hw. unfold mul_outer.
  destruct (for_range_inv (λ st : list Z * Z, length st.1 = length w)
              (mul_inner a b i) a_ndigits 0 (w, 0) eq_refl) as ([w1 c1] & Hloop & Hlen).
  { intros j [w1 c1] Hj Hlen. simpl in Hlen.
    destruct (mul_inner_in_bounds a b i j w1 c1) as (w2 & c2 & Hin & Hl2); try lia.
    exists (w2, c2). split; [exact Hin|]. simpl. lia. }
  simpl in Hlen. rewrite Hloop. cbn.
  rewrite wr_lt by lia. eexists. split; [reflexivity|].
  rewrite length_insert. exact Hlen.
Qed.

Lemma rd_err (w : list Z) (i : nat) (e : gorbn_error) :
  rd w i = Err e → e = OutOfBounds.
Proof. unfold rd. destruct (w !! i); [discriminate | congruence]. Qed.

Lemma wr_err (w : list Z) (i : nat) (v : Z) (e : gorbn_error) :
  wr w i v = Err e → e = OutOfBounds.
Proof. unfold wr. case_decide; [discriminate | congruence]. Qed.

Lemma wr_ok_length (w w' : list Z) (i : nat) (v : Z) :
  wr w i v = Ok w' → length w' = length w.
Proof.
  unfold wr. case_decide; [|discriminate]. intros [= <-]. apply length_insert.
Qed.

Lemma for_range_ok {St : Type} (P : St → Prop) (body : nat → St → result St)
    (count start : nat) (s t : St) :
  (∀ i u u', body i u = Ok u' → P u → P u') →
  P s → for_range start count body s = Ok t → P t.
Proof.
  intros Hbody. revert start s.
  induction count as [|count IH]; intros start s Hs; cbn [for_range].
  - intros [= <-]. exact Hs.
  - destruct (body start s) as [s'|e] eqn:E; cbn; [|discriminate].
    apply IH. eapply Hbody; eassumption.
Qed.

Lemma for_range_err {St : Type} (body : nat → St → result St)
    (count start : nat) (s : St) (e : gorbn_error) :
  (∀ i u e', body i u = Err e' → e' = OutOfBounds) →
  for_range start count body s = Err e → e = OutOfBounds.
Proof.
  intros Hbody. revert start s.
  induction count as [|count IH]; intros start s; cbn [for_range].
  - discriminate.
  - destruct (body start s) as [s'|e'] eqn:E; cbn.
    + apply IH.
    + intros [= <-]. eapply Hbody. exact E.
Qed.

Lemma mul_inner_ok_length (a b : gorbn_bignum) (i j : nat) (st st' : list Z * Z) :
  mul_inner a b i j st = Ok st' → length st'.1 = length st.1.
Proof.
  destruct st as [w c]. unfold mul_inner.
  destruct (rd w (i + j)); cbn; [|discriminate].
  destruct (rd (number a) j); cbn; [|discriminate].
  destruct (rd (number b) i); cbn; [|discriminate].
  destruct (wr w (i + j) _) as [w'|] eqn:E; cbn; [|discriminate].
  intros [= <-]. simpl. eapply wr_ok_length, E.
Qed.

Lemma mul_inner_loop_length (a b : gorbn_bignum) (i n start : nat)
    (st st' : list Z * Z) :
  for_range start n (mul_inner a b i) st = Ok st' → length st'.1 = length st.1.
Proof.
  apply (for_range_ok (λ u : list Z * Z, length u.1 = length st.1)); [|reflexivity].
  intros j u u' Hu Hl. cbv beta. rewrite (mul_inner_ok_length _ _ _ _ _ _ Hu). exact Hl.
Qed.

Lemma mul_inner_err (a b : gorbn_bignum) (i j : nat) (st : list Z * Z) (e : gorbn_error) :
  mul_inner a b i j st = Err e → e = OutOfBounds.
Proof.
  destruct st as [w c]. unfold mul_inner.
  destruct (rd w (i + j)) eqn:E1; cbn; [|intros [= <-]; eapply rd_err, E1].
  destruct (rd (number a) j) eqn:E2; cbn; [|intros [= <-]; eapply rd_err, E2].
  destruct (rd (number b) i) eqn:E3; cbn; [|intros [= <-]; eapply rd_err, E3].
  destruct (wr w (i + j) _) eqn:E4; cbn; [discriminate|].
  intros [= <-]. eapply wr_err, E4.
Qed.

Lemma mul_outer_ok_length (a b : gorbn_bignum) (n i : nat) (w w' : list Z) :
  mul_outer a b n i w = Ok w' → length w' = length w.
Proof.
  unfold mul_outer.
  destruct (for_range 0 n (mul_inner a b i) (w, 0)) as [[w1 c1]|] eqn:E; cbn;
    [|discriminate].
  intros Hwr. rewrite (wr_ok_length _ _ _ _ Hwr).
  apply (mul_inner_loop_length _ _ _ _ _ _ _ E).
Qed.

Lemma mul_outer_loop_length (a b : gorbn_bignum) (n count start : nat) (w w' : list Z) :
  for_range start count (mul_outer a b n) w = Ok w' → length w' = length w.
Proof.
  apply (for_range_ok (λ u : list Z, length u = length w)); [|reflexivity].
  intros j u u' Hu Hl. cbv beta. rewrite (mul_outer_ok_length _ _ _ _ _ _ Hu). exact Hl.
Qed.

Lemma mul_outer_err (a b : gorbn_bignum) (n i : nat) (w : list Z) (e : gorbn_error) :
  mul_outer a b n i w = Err e → e = OutOfBounds.
Proof.
  unfold mul_outer.
  destruct (for_range 0 n (mul_inner a b i) (w, 0)) as [[w1 c1]|e'] eqn:E; cbn.
  - apply wr_err.
  - intros [= <-]. eapply for_range_err; [|exact E].
    intros j u e'' Hu. eapply mul_inner_err, Hu.
Qed.

(** X22.  When [b] is not zero and the digit counts of the operands add up
    to [GORBN_SZARR] or more, [gorbn_mul] does end in the out-of-bounds
    branch: the carry of its last outer round, or an earlier access, falls
    outside the array. *)
Lemma gorbn_mul_out_of_bounds (r a b : gorbn_bignum) :
  _gorbn_get_ndigits b ≠ 0%nat →
  (GORBN_SZARR ≤ _gorbn_get_ndigits a + _gorbn_get_ndigits b)%nat →
  gorbn_mul r a b = Err OutOfBounds.
Proof.
  unfold gorbn_mul.
  destruct (_gorbn_get_ndigits b) as [|n]; intros Hb Hcap; [congruence|].
  rewrite for_range_snoc.
  rewrite (gorbn_init_eq gorbn_declared) by apply length_replicate.
  cbn [number sign Nat.add].
  destruct (for_range 0 n _ _) as [t|e] eqn:E; cbn [mbind result_bind].
  - assert (Ht : length t = GORBN_SZARR).
    { rewrite (mul_outer_loop_length _ _ _ _ _ _ _ E). apply length_replicate. }
    destruct (mul_outer a b (_gorbn_get_ndigits a) n t) as [w|e] eqn:E2; cbn.
    + exfalso. unfold mul_outer in E2.
      destruct (for_range 0 _ (mul_inner a b n) (t, 0)) as [[w1 c1]|] eqn:E3;
        cbn [mbind result_bind] in E2; [|discriminate].
      assert (Hw1 : length w1 = GORBN_SZARR).
      { rewrite <- Ht. apply (mul_inner_loop_length _ _ _ _ _ _ _ E3). }
      rewrite wr_ge in E2 by lia. discriminate.
    + f_equal. eapply mul_outer_err, E2.
  - f_equal. eapply for_range_err; [|exact E].
    intros i u e' Hu. eapply mul_outer_err, Hu.
Qed.

Lemma gorbn_mul_sign (r a b x : gorbn_bignum) :
  gorbn_mul r a b = Ok x → sign x = 1.
Proof.
  unfold gorbn_mul.
  destruct (for_range 0 _ _ _) as [w|e]; cbn; [|discriminate].
  intros [= <-]. reflexivity.
Qed.

(** ** Properties of the byte image *)

Lemma length_bytes_of (bo : byte_order) (w : list Z) :
  length (bytes_of bo w) = (2 * length w)%nat.
Proof. induction w as [|x w IH]; cbn [bytes_of length app word_bytes]; lia. Qed.

Lemma bytes_of_app (bo : byte_order) (w1 w2 : list Z) :
  bytes_of bo (w1 ++ w2) = bytes_of bo w1 ++ bytes_of bo w2.
Proof.
  induction w1 as [|x w1 IH]; cbn [bytes_of app]; [reflexivity|].
  rewrite IH. reflexivity.
Qed.

Lemma bytes_of_replicate_0 (bo : byte_order) (n : nat) :
  bytes_of bo (replicate n 0) = replicate (2 * n) 0.
Proof.
  induction n as [|n IH]; [reflexivity|].
  replace (2 * S n)%nat with (S (S (2 * n))) by lia.
  cbn [replicate bytes_of]. rewrite IH. destruct bo; reflexivity.
Qed.

Lemma byte_lane_even (bo : byte_order) (i : nat) :
  byte_lane bo (2 * i) = byte_lane bo 0.
Proof.
  unfold byte_lane. rewrite (Nat.mul_comm 2 i), Nat.Div0.mod_mul. reflexivity.
Qed.

Lemma byte_lane_odd (bo : byte_order) (i : nat) :
  byte_lane bo (2 * i + 1) = byte_lane bo 1.
Proof.
  unfold byte_lane.
  rewrite (Nat.add_comm (2 * i) 1), (Nat.mul_comm 2 i), Nat.Div0.mod_add.
  reflexivity.
Qed.

(** The loop of [gorbn_to_data] lays the words out over the front of the
    buffer. *)
Lemma to_data_loop (bo : byte_order) (w data : list Z) (n : nat) :
  (n ≤ length w)%nat → (2 * n ≤ length data)%nat →
  for_range 0 n (λ i d, wr_word bo d i (w !!! i)) data
  = Ok (bytes_of bo (take n w) ++ drop (2 * n) data).
Proof.
  induction n as [|n IH]; intros Hw Hd.
  - cbn. rewrite drop_0. reflexivity.
  - rewrite for_range_snoc, IH by lia. cbn [mbind result_bind Nat.add].
    pose proof (length_bytes_of bo (take n w)) as HB.
    rewrite length_take_le in HB by lia.
    unfold wr_word.
    rewrite decide_True by (rewrite length_app, HB, length_drop; lia).
    destruct (lookup_lt_is_Some_2 data (2 * n) ltac:(lia)) as [d0 Hd0].
    destruct (lookup_lt_is_Some_2 data (S (2 * n)) ltac:(lia)) as [d1 Hd1].
    rewrite (drop_S data d0 (2 * n) Hd0), (drop_S data d1 (S (2 * n)) Hd1).
    rewrite byte_lane_even, byte_lane_odd.
    rewrite (insert_app_r_alt _ _ (2 * n)) by lia.
    rewrite (insert_app_r_alt _ _ (2 * n + 1)) by lia.
    rewrite HB.
    replace (2 * n - 2 * n)%nat with 0%nat by lia.
    replace (2 * n + 1 - 2 * n)%nat with 1%nat by lia.
    cbn [insert list_insert].
    rewrite (take_S_r w n (w !!! n)) by (apply list_lookup_lookup_total_lt; lia).
    rewrite bytes_of_app. cbn [bytes_of word_bytes]. rewrite app_nil_r, <- app_assoc.
    replace (2 * S n)%nat with (S (S (2 * n))) by lia. reflexivity.
Qed.

Lemma shiftr_8 (x : Z) : Z.shiftr x 8 = x / 256.
Proof. rewrite Z.shiftr_div_pow2 by lia. reflexivity. Qed.

Lemma byte_lane_cases (bo : byte_order) :
  (byte_lane bo 0 = 0%nat ∧ byte_lane bo 1 = 1%nat) ∨
  (byte_lane bo 0 = 1%nat ∧ byte_lane bo 1 = 0%nat).
Proof. destruct bo; [left | right]; split; reflexivity. Qed.

(** Replacing one byte of a word replaces that byte of its memory image. *)
Lemma set_byte_bytes (bo : byte_order) (x v : Z) (m : nat) :
  is_word x → is_byte v → (m < 2)%nat →
  is_word (set_byte x (byte_lane bo m) v) ∧
  word_bytes bo (set_byte x (byte_lane bo m) v) = <[m := v]> (word_bytes bo x).
Proof.
  unfold is_word, is_byte, word_bytes. intros Hx Hv Hm.
  assert (Hm' : m = 0%nat ∨ m = 1%nat) by lia.
  destruct (byte_lane_cases bo) as [[E0 E1]|[E0 E1]], Hm' as [-> | ->];
    rewrite ?E0, ?E1; cbn [set_byte get_byte insert list_insert];
    rewrite ?shiftr_8;
    (split; [|apply (f_equal2 cons); [|apply (f_equal2 cons); [|reflexivity]]]);
    Z.div_mod_to_equations; lia.
Qed.

Lemma byte_lane_mod (bo : byte_order) (k : nat) :
  byte_lane bo k = byte_lane bo (k mod 2).
Proof. unfold byte_lane. rewrite Nat.Div0.mod_mod. reflexivity. Qed.

(** A byte store into the word array replaces that byte of its image. *)
Lemma wr_byte_spec (bo : byte_order) (w : list Z) (k : nat) (v : Z) :
  Forall is_word w → is_byte v → (k < 2 * length w)%nat →
  ∃ w', wr_byte bo w k v = Ok w' ∧ length w' = length w ∧ Forall is_word w' ∧
        bytes_of bo w' = <[k := v]> (bytes_of bo w).
Proof.
  intros Hw Hv Hk.
  pose proof (Nat.div_mod_eq k 2) as Hdm.
  pose proof (Nat.mod_upper_bound k 2 ltac:(lia)) as Hm.
  set (q := (k / 2)%nat) in *. set (m := (k mod 2)%nat) in *.
  assert (Hq : (q < length w)%nat) by lia.
  unfold wr_byte. fold q. rewrite rd_lt by exact Hq. cbn [mbind result_bind].
  rewrite wr_lt by exact Hq.
  pose proof (is_word_lookup_total w q Hw) as Hx. set (x := w !!! q) in *.
  rewrite byte_lane_mod. fold m.
  destruct (set_byte_bytes bo x v m Hx Hv Hm) as [Hx' Hbytes].
  rewrite gorbn_t_word by exact Hx'.
  eexists. split; [reflexivity|]. split; [apply length_insert|]. split.
  - apply Forall_insert; assumption.
  - rewrite insert_take_drop by exact Hq.
    rewrite <- (take_drop_middle w q x) at 3
      by (apply list_lookup_lookup_total_lt; exact Hq).
    rewrite !bytes_of_app. cbn [bytes_of]. rewrite Hbytes.
    pose proof (length_bytes_of bo (take q w)) as HB.
    rewrite length_take_le in HB by lia.
    rewrite insert_app_r_alt by lia. rewrite HB.
    replace (k - 2 * q)%nat with m by lia.
    f_equal. unfold word_bytes.
    assert (Hm' : m = 0%nat ∨ m = 1%nat) by lia.
    destruct Hm' as [-> | ->]; reflexivity.
Qed.

Lemma for_range_ind {St : Type} (P : nat → St → Prop) (body : nat → St → result St)
    (count : nat) (s : St) :
  P O s →
  (∀ i t, (i < count)%nat → P i t → ∃ t', body i t = Ok t' ∧ P (S i) t') →
  ∃ t, for_range 0 count body s = Ok t ∧ P count t.
Proof.
  intros H0 Hstep.
  assert (Hall : ∀ k, (k ≤ count)%nat → ∃ t, for_range 0 k body s = Ok t ∧ P k t).
  { induction k as [|k IH]; intros Hk.
    - exists s. split; [reflexivity | exact H0].
    - destruct (IH ltac:(lia)) as (t & Ht & HP).
      rewrite for_range_snoc, Ht. cbn. apply Hstep; [lia | exact HP]. }
  apply Hall. lia.
Qed.

(** The loop of [gorbn_from_data] over a cleared array. *)
Lemma from_data_loop (bo : byte_order) (data : list Z) (n : nat) :
  Forall is_byte data → (n ≤ length data)%nat → (n ≤ 2 * GORBN_SZARR)%nat →
  ∃ w, for_range 0 n (λ i w, v ← rd data i; wr_byte bo w i v) (replicate GORBN_SZARR 0)
       = Ok w ∧
       wf_number w ∧
       bytes_of bo w = take n data ++ replicate (2 * GORBN_SZARR - n) 0.
Proof.
  intros Hdata Hn Hcap.
  apply (for_range_ind (λ k w, wf_number w ∧
           bytes_of bo w = take k data ++ replicate (2 * GORBN_SZARR - k) 0)).
  - split.
    + split; [apply length_replicate|]. apply Forall_replicate. unfold is_word. lia.
    + rewrite bytes_of_replicate_0, take_0, Nat.sub_0_r. reflexivity.
  - intros k w Hk [[Hlen Hw] Himg].
    rewrite rd_lt by lia. cbn [mbind result_bind].
    assert (Hv : is_byte (data !!! k)).
    { eapply Forall_lookup_1; [exact Hdata|]. apply list_lookup_lookup_total_lt. lia. }
    destruct (wr_byte_spec bo w k (data !!! k) Hw Hv ltac:(lia))
      as (w' & Hwr & Hlen' & Hw' & Himg').
    exists w'. split; [exact Hwr|]. split; [split; [lia | exact Hw']|].
    rewrite Himg', Himg.
    rewrite insert_app_r_alt by (rewrite length_take_le; lia).
    rewrite length_take_le, Nat.sub_diag by lia.
    replace (2 * GORBN_SZARR - k)%nat with (S (2 * GORBN_SZARR - S k)) by lia.
    cbn [replicate insert list_insert].
    rewrite (take_S_r data k (data !!! k)) by (apply list_lookup_lookup_total_lt; lia).
    rewrite <- app_assoc. reflexivity.
Qed.

(** * The bitwise routines *)

Lemma lookup_for_up_store (f : nat → Z) (w : list Z) (i : nat) :
  length w = GORBN_SZARR → (i < GORBN_SZARR)%nat →
  for_up GORBN_SZARR (λ i w, store w i (f i)) w !! i = Some (gorbn_t (f i)).
Proof.
  intros Hw Hi. rewrite for_up_store_full by exact Hw.
  rewrite list_lookup_fmap, lookup_seq_lt by exact Hi. reflexivity.
Qed.

(** What the three routines store, word by word. *)
Lemma gorbn_and_word (r a b : gorbn_bignum) (i : nat) :
  length (number r) = GORBN_SZARR → (i < GORBN_SZARR)%nat →
  number (gorbn_and r a b) !! i
  = Some (gorbn_t (Z.lor (number a !!! i) (number b !!! i))).
Proof. intros. unfold gorbn_and. cbn [number]. by apply lookup_for_up_store. Qed.

Lemma gorbn_or_word (r a b : gorbn_bignum) (i : nat) :
  length (number r) = GORBN_SZARR → (i < GORBN_SZARR)%nat →
  number (gorbn_or r a b) !! i
  = Some (gorbn_t (Z.lxor (number a !!! i) (number b !!! i))).
Proof. intros. unfold gorbn_or. cbn [number]. by apply lookup_for_up_store. Qed.

Lemma gorbn_xor_word (r a b : gorbn_bignum) (i : nat) :
  length (number r) = GORBN_SZARR → (i < GORBN_SZARR)%nat →
  number (gorbn_xor r a b) !! i
  = Some (gorbn_t (Z.land (number a !!! i) (number b !!! i))).
Proof. intros. unfold gorbn_xor. cbn [number]. by apply lookup_for_up_store. Qed.

(** C1. The claim is that [gorbn_and] stores the bitwise AND of the operand
    words, [gorbn_or] their OR and [gorbn_xor] their XOR, as the header
    documents them ([r = a & b], [r = a | b], [r = a ^ b]).  On the operands
    12 and 10 (AND 8, OR 14, XOR 6) word 0 of the destination is 14 after
    [gorbn_and], 6 after [gorbn_or] and 8 after [gorbn_xor]: the three bodies
    compute OR, XOR and AND. *)
Theorem gorbn_bitwise_at_12_10 :
  let a := gorbn_from_uint gorbn_declared 12 in
  let b := gorbn_from_uint gorbn_declared 10 in
  (Z.land 12 10 = 8 ∧ Z.lor 12 10 = 14 ∧ Z.lxor 12 10 = 6) ∧
  number a !! 0%nat = Some 12 ∧ number b !! 0%nat = Some 10 ∧
  number (gorbn_and gorbn_declared a b) !! 0%nat = Some 14 ∧
  number (gorbn_or gorbn_declared a b) !! 0%nat = Some 6 ∧
  number (gorbn_xor gorbn_declared a b) !! 0%nat = Some 8.
Proof. vm_compute. repeat split; reflexivity. Qed.

(** * Multiplication of 123456 by 654321 *)

(** C2, as stated, fails: the destination of
    [gorbn_mul(from_uint(123456), from_uint(654321))] does not hold the words
    of [from_uint(80784793176)]. *)
Lemma gorbn_mul_123456_654321_not_80784793176 :
  ¬ ∃ r, gorbn_mul gorbn_declared (gorbn_from_uint gorbn_declared 123456)
           (gorbn_from_uint gorbn_declared 654321) = Ok r ∧
         number r = number (gorbn_from_uint gorbn_declared 80784793176).
Proof.
  intros (r & Hr & Hn). vm_compute in Hr. injection Hr as <-.
  vm_compute in Hn. discriminate Hn.
Qed.

(** C2, amended.  123456 * 654321 is 80779853376, and [gorbn_from_uint]
    keeps the low 32 bits of its argument.  The call returns a destination of
    sign +1 whose words 0 and 1 are the two words of
    [from_uint(80779853376)], 48704 and 52954, and whose words from index 5
    up are 0. *)
Theorem gorbn_mul_123456_654321_low_words :
  123456 * 654321 = 80779853376 ∧
  ∃ r, gorbn_mul gorbn_declared (gorbn_from_uint gorbn_declared 123456)
         (gorbn_from_uint gorbn_declared 654321) = Ok r ∧
       sign r = 1 ∧
       take 2 (number r) = take 2 (number (gorbn_from_uint gorbn_declared 80779853376)) ∧
       take 2 (number r) = [48704; 52954] ∧
       drop 5 (number r) = replicate (GORBN_SZARR - 5) 0.
Proof.
  split; [reflexivity|]. eexists. split; [vm_compute; reflexivity|].
  vm_compute. repeat split; reflexivity.
Qed.

(** The words the call leaves at indices 2 and 3, next to those of the
    product. *)
Lemma gorbn_mul_123456_654321_words :
  ∃ r, gorbn_mul gorbn_declared (gorbn_from_uint gorbn_declared 123456)
         (gorbn_from_uint gorbn_declared 654321) = Ok r ∧
       take 5 (number r) = [48704; 52954; 17; 1; 0] ∧
       magnitude [48704; 52954; 18; 0; 0] = 123456 * 654321.
Proof.
  eexists. split; [vm_compute; reflexivity|]. vm_compute. split; reflexivity.
Qed.

(** * Signs of sums and differences *)

(** C3. The claim is that for operands of differing effective signs the
    result takes the sign of the operand of larger magnitude, and that equal
    magnitudes give a zero of sign +1.  [gorbn_add] of -3 and 5 returns
    magnitude 2 with sign -1 although 5 is the larger magnitude and is
    positive; of -3 and 3 it returns zero with sign -1; and [gorbn_sub] of -3
    and -5 (effective signs -1 and +1) returns magnitude 2 with sign -1. *)
Theorem gorbn_add_sign_neg3_5 :
  let a := gorbn_from_int gorbn_declared (-3) in
  let b := gorbn_from_int gorbn_declared 5 in
  let b' := gorbn_from_int gorbn_declared 3 in
  let b'' := gorbn_from_int gorbn_declared (-5) in
  (sign a = -1 ∧ sign b = 1 ∧ gorbn_cmp_mod a b = GORBN_CMP_SMALLER) ∧
  gorbn_add gorbn_declared a b
    = Ok {| sign := -1; number := number (gorbn_from_uint gorbn_declared 2) |} ∧
  gorbn_add gorbn_declared a b'
    = Ok {| sign := -1; number := number (gorbn_from_uint gorbn_declared 0) |} ∧
  gorbn_sub gorbn_declared a b''
    = Ok {| sign := -1; number := number (gorbn_from_uint gorbn_declared 2) |}.
Proof. vm_compute. repeat split; reflexivity. Qed.

(** C4. The claim is that [gorbn_add(a, b)] followed by [gorbn_sub] of the
    same [b] gives back [a], sign and words.  From [a = 2] and [b = -5] the
    sum is -3 and the difference that follows is magnitude 2 with sign -1:
    the words of [a] with the opposite sign. *)
Theorem gorbn_add_sub_2_neg5 :
  let a := gorbn_from_uint gorbn_declared 2 in
  let b := gorbn_from_int gorbn_declared (-5) in
  sign a = 1 ∧
  gorbn_add gorbn_declared a b = Ok (gorbn_from_int gorbn_declared (-3)) ∧
  (r ← gorbn_add gorbn_declared a b; gorbn_sub gorbn_declared r b)
    = Ok {| sign := -1; number := number a |}.
Proof. vm_compute. repeat split; reflexivity. Qed.

(** C5. The claim is that the sign of a product is negative when the signs
    of the operands differ.  [gorbn_mul] of -2 and 3 returns magnitude 6 with
    sign +1. *)
Theorem gorbn_mul_sign_neg2_3 :
  let a := gorbn_from_int gorbn_declared (-2) in
  let b := gorbn_from_int gorbn_declared 3 in
  sign a = -1 ∧ sign b = 1 ∧
  gorbn_mul gorbn_declared a b = Ok (gorbn_from_uint gorbn_declared 6) ∧
  sign (gorbn_from_uint gorbn_declared 6) = 1.
Proof. vm_compute. repeat split; reflexivity. Qed.

(** * Addition past the capacity *)

(** C6, as stated, fails: adding 1 to the largest magnitude, both of sign +1,
    carries out of the highest word, and [gorbn_add] returns the low words
    of the sum, all 0, without reporting anything. *)
Lemma gorbn_add_max_plus_1_no_fault :
  let a := gorbn_max in
  let b := gorbn_from_uint gorbn_declared 1 in
  sign a = sign b ∧ (add_loop gorbn_declared a b).2 = 1 ∧
  gorbn_add gorbn_declared a b = Ok (gorbn_init gorbn_declared) ∧
  ¬ reports_fault (gorbn_add gorbn_declared a b).
Proof.
  cbv zeta. split; [reflexivity|]. split; [vm_compute; reflexivity|].
  assert (H : gorbn_add gorbn_declared gorbn_max (gorbn_from_uint gorbn_declared 1)
              = Ok (gorbn_init gorbn_declared)) by (vm_compute; reflexivity).
  split; [exact H|]. rewrite H. intros [e He]. discriminate He.
Qed.

(** C6, amended.  When two operands of the same sign are added and the carry
    out of the highest word is not 0, [gorbn_add] reports no fault: it returns
    a destination with the common sign whose words are the low
    [GORBN_SZARR] words of the sum, the sum of the magnitudes less
    2^(16 * GORBN_SZARR). *)
Theorem gorbn_add_carry_out_dropped (r a b : gorbn_bignum) :
  length (number r) = GORBN_SZARR →
  wf_number (number a) → wf_number (number b) →
  sign a = sign b →
  (add_loop r a b).2 ≠ 0 →
  ¬ reports_fault (gorbn_add r a b) ∧
  ∃ r', gorbn_add r a b = Ok r' ∧ sign r' = sign a ∧ wf_number (number r') ∧
        magnitude (number r')
        = magnitude (number a) + magnitude (number b) - radix_pow GORBN_SZARR.
Proof.
  intros Hr Ha Hb Hs Hc.
  destruct (gorbn_add_same_sign r a b Hr Ha Hb Hs) as (r' & Hadd & Hsign & Hwf & Hmag).
  split; [rewrite Hadd; intros [e He]; discriminate He|].
  exists r'. repeat split; try assumption; try apply Hwf.
  apply (add_loop_carry_out r a b Hr Ha Hb) in Hc.
  pose proof (magnitude_bound _ (proj2 Ha)) as Hma.
  pose proof (magnitude_bound _ (proj2 Hb)) as Hmb.
  rewrite (proj1 Ha) in Hma. rewrite (proj1 Hb) in Hmb.
  rewrite Hmag. pose proof (radix_pow_pos GORBN_SZARR) as HR.
  symmetry. apply Z.mod_unique with (q := 1); lia.
Qed.

Lemma gorbn_add_carry_out_dropped_witness :
  ¬ reports_fault (gorbn_add gorbn_declared gorbn_max (gorbn_from_uint gorbn_declared 1)) ∧
  ∃ r', gorbn_add gorbn_declared gorbn_max (gorbn_from_uint gorbn_declared 1) = Ok r' ∧
        sign r' = sign gorbn_max ∧ wf_number (number r') ∧
        magnitude (number r')
        = magnitude (number gorbn_max)
          + magnitude (number (gorbn_from_uint gorbn_declared 1))
          - radix_pow GORBN_SZARR.
Proof.
  apply (gorbn_add_carry_out_dropped gorbn_declared gorbn_max
           (gorbn_from_uint gorbn_declared 1)).
  - reflexivity.
  - by_evaluation.
  - by_evaluation.
  - reflexivity.
  - vm_compute. discriminate.
Defined.

(** * Division *)

(** C7, as stated, fails: [gorbn_div] of 17 by a divisor whose words are all
    0 reports nothing; the call returns and the destination is as it was. *)
Lemma gorbn_div_by_zero_no_fault :
  let a := gorbn_from_uint gorbn_declared 17 in
  let b := gorbn_from_uint gorbn_declared 0 in
  Forall (λ x, x = 0) (number b) ∧
  gorbn_div gorbn_declared a b = Ok gorbn_declared ∧
  ¬ reports_fault (gorbn_div gorbn_declared a b).
Proof.
  cbv zeta. split; [by_evaluation|]. split; [reflexivity|].
  intros [e He]. discriminate He.
Qed.

(** C7, amended.  For every dividend, [gorbn_div] with a divisor whose words
    are all 0 reports no fault: the call returns and leaves the destination
    as it received it. *)
Theorem gorbn_div_zero_divisor_returns (r a b : gorbn_bignum) :
  Forall (λ x, x = 0) (number b) →
  gorbn_div r a b = Ok r ∧ ¬ reports_fault (gorbn_div r a b).
Proof.
  intros _. split; [reflexivity|]. intros [e He]. discriminate He.
Qed.

Lemma gorbn_div_zero_divisor_returns_witness :
  gorbn_div gorbn_declared (gorbn_from_uint gorbn_declared 17)
    (gorbn_from_uint gorbn_declared 0) = Ok gorbn_declared ∧
  ¬ reports_fault (gorbn_div gorbn_declared (gorbn_from_uint gorbn_declared 17)
                     (gorbn_from_uint gorbn_declared 0)).
Proof.
  apply (gorbn_div_zero_divisor_returns gorbn_declared
           (gorbn_from_uint gorbn_declared 17) (gorbn_from_uint gorbn_declared 0)).
  by_evaluation.
Defined.

(** * Array accesses of the multiplication *)

(** C8.  The claim is that for operands with
    digits(a) + digits(b) <= GORBN_SZARR every array access of [gorbn_mul] is
    inside the array.  With 127 digits in [a] (the value 2^(16 * 126)) and 1
    digit in [b] (the value 1) the digit counts add up to [GORBN_SZARR] and
    the product fits in [GORBN_SZARR] words, but the carry of the only outer
    round is stored at index 0 + 127 + 1 = 128, one past the last word: the
    call ends in the out-of-bounds branch.  The store is one word too high;
    at index [i + a_ndigits] it would be inside the array. *)
Lemma gorbn_mul_127_digits_out_of_bounds :
  let a := {| sign := 1; number := <[126%nat := 1]> (replicate GORBN_SZARR 0) |} in
  let b := gorbn_from_uint gorbn_declared 1 in
  wf_bignum a ∧ wf_bignum b ∧
  _gorbn_get_ndigits a = 127%nat ∧ _gorbn_get_ndigits b = 1%nat ∧
  (_gorbn_get_ndigits a + _gorbn_get_ndigits b ≤ GORBN_SZARR)%nat ∧
  magnitude (number a) * magnitude (number b) < radix_pow GORBN_SZARR ∧
  (0 + _gorbn_get_ndigits a < GORBN_SZARR)%nat ∧
  ¬ (0 + _gorbn_get_ndigits a + 1 < GORBN_SZARR)%nat ∧
  gorbn_mul gorbn_declared a b = Err OutOfBounds.
Proof.
  cbv zeta. split; [by_evaluation|]. split; [by_evaluation|].
  split; [vm_compute; reflexivity|]. split; [vm_compute; reflexivity|].
  split; [by_evaluation|]. split; [by_evaluation|].
  split; [by_evaluation|]. split; [by_evaluation|]. vm_compute. reflexivity.
Qed.

(** With the carry stored where [gorbn_mul] stores it, at index
    [i + a_ndigits + 1], the accesses stay inside the array only under the
    stricter bound digits(a) + digits(b) + 1 <= GORBN_SZARR. *)
Theorem gorbn_mul_in_bounds (r a b : gorbn_bignum) :
  length (number a) = GORBN_SZARR → length (number b) = GORBN_SZARR →
  (_gorbn_get_ndigits a + _gorbn_get_ndigits b + 1 ≤ GORBN_SZARR)%nat →
  ∃ x, gorbn_mul r a b = Ok x.
Proof.
  intros Ha Hb Hcap. unfold gorbn_mul.
  pose proof (ndigits_scan_le (number a) GORBN_SZARR) as Hna.
  pose proof (ndigits_scan_le (number b) GORBN_SZARR) as Hnb.
  fold (_gorbn_get_ndigits a) in Hna. fold (_gorbn_get_ndigits b) in Hnb.
  rewrite (gorbn_init_eq gorbn_declared) by apply length_replicate.
  cbn [number sign].
  destruct (for_range_inv (λ w : list Z, length w = GORBN_SZARR)
              (mul_outer a b (_gorbn_get_ndigits a)) (_gorbn_get_ndigits b) 0
              (replicate GORBN_SZARR 0)) as (w & Hloop & Hlen).
  - apply length_replicate.
  - intros i t Hi Ht.
    destruct (mul_outer_in_bounds a b (_gorbn_get_ndigits a) i t) as (t' & Ht' & Hl');
      try lia.
    exists t'. split; [exact Ht' | lia].
  - rewrite Hloop. cbn. eexists. reflexivity.
Qed.

Lemma gorbn_mul_in_bounds_witness :
  ∃ x, gorbn_mul gorbn_declared
         {| sign := 1; number := <[125%nat := 1]> (replicate GORBN_SZARR 0) |}
         (gorbn_from_uint gorbn_declared 1) = Ok x.
Proof.
  apply (gorbn_mul_in_bounds gorbn_declared
           {| sign := 1; number := <[125%nat := 1]> (replicate GORBN_SZARR 0) |}
           (gorbn_from_uint gorbn_declared 1)).
  - reflexivity.
  - reflexivity.
  - by_evaluation.
Defined.

(** * The order of [gorbn_cmp] *)

(** C9, as stated, fails: the zero that [gorbn_init] builds and the zero
    that [gorbn_sub] returns for -3 minus -3, of sign -1, stand for the same
    integer, and [gorbn_cmp] returns LARGER for them. *)
Lemma gorbn_cmp_zero_signs :
  let a := gorbn_init gorbn_declared in
  let m3 := gorbn_from_int gorbn_declared (-3) in
  ∃ b, gorbn_sub gorbn_declared m3 m3 = Ok b ∧
       wf_bignum a ∧ wf_bignum b ∧
       gorbn_value a = gorbn_value b ∧
       gorbn_cmp a b = GORBN_CMP_LARGER ∧
       gorbn_cmp a b ≠ GORBN_CMP_EQUAL.
Proof.
  cbv zeta. eexists. split; [vm_compute; reflexivity|].
  split; [by_evaluation|]. split; [by_evaluation|].
  split; [vm_compute; reflexivity|]. split; [vm_compute; reflexivity|].
  vm_compute. discriminate.
Qed.

(** C9, amended.  [gorbn_cmp(a, a)] is EQUAL (for every [a], lemma
    [gorbn_cmp_refl]), and over all pairs of values with a sign of +1 or -1,
    except the pairs of two zeros of different signs, [gorbn_cmp] is the
    order of the signed integers the operands stand for: LARGER exactly when
    the value of [a] exceeds that of [b], SMALLER exactly when it is less,
    EQUAL exactly when the values coincide. *)
Theorem gorbn_cmp_signed_order (a b : gorbn_bignum) :
  wf_bignum a → wf_bignum b →
  ¬ (magnitude (number a) = 0 ∧ magnitude (number b) = 0 ∧ sign a ≠ sign b) →
  gorbn_cmp a a = GORBN_CMP_EQUAL ∧
  (gorbn_cmp a b = GORBN_CMP_LARGER ↔ gorbn_value b < gorbn_value a) ∧
  (gorbn_cmp a b = GORBN_CMP_SMALLER ↔ gorbn_value a < gorbn_value b) ∧
  (gorbn_cmp a b = GORBN_CMP_EQUAL ↔ gorbn_value a = gorbn_value b).
Proof.
  intros Ha Hb Hz. split; [apply gorbn_cmp_refl|].
  rewrite (gorbn_cmp_spec a b Ha Hb Hz).
  unfold GORBN_CMP_LARGER, GORBN_CMP_SMALLER, GORBN_CMP_EQUAL.
  destruct (Z.compare_spec (gorbn_value a) (gorbn_value b)); repeat split; lia.
Qed.

Lemma gorbn_cmp_signed_order_witness :
  let a := gorbn_from_int gorbn_declared (-5) in
  let b := gorbn_from_uint gorbn_declared 3 in
  gorbn_cmp a a = GORBN_CMP_EQUAL ∧
  (gorbn_cmp a b = GORBN_CMP_LARGER ↔ gorbn_value b < gorbn_value a) ∧
  (gorbn_cmp a b = GORBN_CMP_SMALLER ↔ gorbn_value a < gorbn_value b) ∧
  (gorbn_cmp a b = GORBN_CMP_EQUAL ↔ gorbn_value a = gorbn_value b).
Proof.
  cbv zeta.
  apply (gorbn_cmp_signed_order (gorbn_from_int gorbn_declared (-5))
           (gorbn_from_uint gorbn_declared 3)).
  - by_evaluation.
  - by_evaluation.
  - intros (Hm & _ & _). vm_compute in Hm. discriminate Hm.
Defined.

(** * Import and export of bytes *)

(** C10.  For every buffer of [n] bytes with [n] at most the capacity in
    bytes, [gorbn_from_data] followed by [gorbn_to_data] writes the capacity
    in bytes: the buffer in the first [n] positions, 0 in the others.  The
    bytes of the destination past the capacity stay as they were.  This holds
    for either byte order of the machine, with or without assertions. *)
Theorem gorbn_data_round_trip (asserts : bool) (bo : byte_order) (n : gorbn_bignum)
    (buf dst : list Z) (data_size : nat) :
  length (number n) = GORBN_SZARR →
  Forall is_byte buf →
  (length buf ≤ GORBN_SZARR * GORBN_SZWORD)%nat →
  (GORBN_SZARR * GORBN_SZWORD ≤ data_size)%nat →
  (data_size ≤ length dst)%nat →
  ∃ bn, gorbn_from_data bo n buf (length buf) = Ok bn ∧
        gorbn_to_data asserts bo dst data_size bn
        = Ok (buf ++ replicate (GORBN_SZARR * GORBN_SZWORD - length buf) 0
                  ++ drop (GORBN_SZARR * GORBN_SZWORD) dst).
Proof.
  intros Hn Hbuf Hcap Hsize Hdst.
  change (GORBN_SZARR * GORBN_SZWORD)%nat with (2 * GORBN_SZARR)%nat in *.
  unfold gorbn_from_data. rewrite (gorbn_init_eq n Hn). cbn [number sign].
  destruct (from_data_loop bo buf (length buf) Hbuf (le_n _) Hcap)
    as (w & Hloop & [Hlen Hw] & Himg).
  rewrite Hloop. cbn [mbind result_bind]. eexists. split; [reflexivity|].
  unfold gorbn_to_data, GORBN_ASSERT.
  change (GORBN_SZARR * GORBN_SZWORD)%nat with (2 * GORBN_SZARR)%nat.
  rewrite bool_decide_eq_true_2 by exact Hsize.
  rewrite andb_false_r. cbn [mbind result_bind number].
  rewrite to_data_loop by lia.
  rewrite take_ge by lia. rewrite Himg, take_ge by lia.
  rewrite <- app_assoc. reflexivity.
Qed.

Lemma gorbn_data_round_trip_witness :
  ∃ bn, gorbn_from_data LittleEndian gorbn_declared [1; 2; 3] 3 = Ok bn ∧
        gorbn_to_data true LittleEndian (replicate 258 7) 258 bn
        = Ok ([1; 2; 3] ++ replicate (GORBN_SZARR * GORBN_SZWORD - 3) 0
                ++ drop (GORBN_SZARR * GORBN_SZWORD) (replicate 258 7)).
Proof.
  apply (gorbn_data_round_trip true LittleEndian gorbn_declared [1; 2; 3]
           (replicate 258 7) 258).
  - reflexivity.
  - by_evaluation.
  - by_evaluation.
  - by_evaluation.
  - by_evaluation.
Defined.

(** * Further properties of the routines *)

(** ** Construction *)

Lemma magnitude_word_pair (x y : Z) (n : nat) :
  magnitude (x :: y :: replicate n 0) = x + 2 ^ 16 * y.
Proof. cbn [magnitude]. rewrite magnitude_replicate_0. lia. Qed.

Lemma wf_number_word_pair (x y : Z) :
  is_word x → is_word y → wf_number (x :: y :: replicate (GORBN_SZARR - 2) 0).
Proof.
  intros Hx Hy. split; [reflexivity|].
  constructor; [exact Hx|]. constructor; [exact Hy|].
  apply Forall_replicate. unfold is_word. lia.
Qed.

Lemma number_from_words (n : gorbn_bignum) (x y : Z) :
  length (number n) = GORBN_SZARR →
  store (store (number (gorbn_init n)) 0 x) 1 y
  = gorbn_t x :: gorbn_t y :: replicate (GORBN_SZARR - 2) 0.
Proof. intros Hn. rewrite (gorbn_init_eq n Hn). reflexivity. Qed.

(** X1.  [gorbn_init] on a declared bignum leaves the value zero: sign +1,
    every word 0, and [gorbn_is_zero] answers 1 for it. *)
Theorem gorbn_init_zero (n : gorbn_bignum) :
  length (number n) = GORBN_SZARR →
  wf_bignum (gorbn_init n) ∧ sign (gorbn_init n) = 1 ∧
  Forall (λ x, x = 0) (number (gorbn_init n)) ∧
  gorbn_value (gorbn_init n) = 0 ∧ gorbn_is_zero (gorbn_init n) = 1.
Proof.
  intros Hn. rewrite (gorbn_init_eq n Hn).
  split; [by_evaluation|]. split; [reflexivity|].
  split; [apply Forall_replicate; reflexivity|].
  split; reflexivity.
Qed.

Lemma gorbn_init_zero_witness :
  wf_bignum (gorbn_init gorbn_max) ∧ sign (gorbn_init gorbn_max) = 1 ∧
  Forall (λ x, x = 0) (number (gorbn_init gorbn_max)) ∧
  gorbn_value (gorbn_init gorbn_max) = 0 ∧ gorbn_is_zero (gorbn_init gorbn_max) = 1.
Proof. apply (gorbn_init_zero gorbn_max). reflexivity. Defined.

Lemma copy_loop_eq (dst src : list Z) :
  length dst = GORBN_SZARR → wf_number src →
  for_up GORBN_SZARR (λ i w, store w i (src !!! i)) dst = src.
Proof.
  intros Hd [Hl Hw]. rewrite for_up_store_full by exact Hd.
  apply list_eq_same_length with GORBN_SZARR;
    [exact Hl | rewrite length_fmap, length_seq; reflexivity |].
  intros i x y Hi Hx Hy.
  rewrite list_lookup_fmap, lookup_seq_lt in Hx by exact Hi. cbn in Hx.
  rewrite list_lookup_lookup_total_lt in Hy by lia.
  injection Hx as <-. injection Hy as <-.
  apply gorbn_t_word, is_word_lookup_total, Hw.
Qed.

Lemma gorbn_copy_same (dst src : gorbn_bignum) :
  length (number dst) = GORBN_SZARR → wf_number (number src) →
  gorbn_copy dst src = src.
Proof.
  intros Hd Hs. destruct src as [s w]. unfold gorbn_copy. cbn [sign number] in *.
  f_equal. apply copy_loop_eq; assumption.
Qed.

(** X2.  [gorbn_copy] makes the destination equal to the source, sign and
    words, whatever the destination held. *)
Theorem gorbn_copy_eq (dst src : gorbn_bignum) :
  length (number dst) = GORBN_SZARR → wf_number (number src) →
  gorbn_copy dst src = src.
Proof.
  intros Hd Hs. destruct src as [s w]. unfold gorbn_copy. cbn [sign number] in *.
  rewrite (copy_loop_eq (number dst) w Hd Hs). reflexivity.
Qed.

Lemma gorbn_copy_eq_witness :
  gorbn_copy gorbn_max (gorbn_from_int gorbn_declared (-70000))
  = gorbn_from_int gorbn_declared (-70000).
Proof.
  apply (gorbn_copy_eq gorbn_max (gorbn_from_int gorbn_declared (-70000))).
  - reflexivity.
  - by_evaluation.
Defined.

(** X3.  [gorbn_from_uint] builds a well-formed bignum of sign +1 whose
    magnitude is the argument reduced to 32 bits; an argument that fits the
    32-bit parameter is represented exactly. *)
Theorem gorbn_from_uint_value (n : gorbn_bignum) (i : Z) :
  length (number n) = GORBN_SZARR →
  wf_bignum (gorbn_from_uint n i) ∧ sign (gorbn_from_uint n i) = 1 ∧
  gorbn_value (gorbn_from_uint n i) = i mod 2 ^ 32 ∧
  (0 ≤ i < 2 ^ 32 → gorbn_value (gorbn_from_uint n i) = i).
Proof.
  intros Hn. unfold gorbn_from_uint, gorbn_value, wf_bignum. cbn [sign number].
  rewrite (number_from_words n _ _ Hn).
  assert (Hm : magnitude (gorbn_t (gorbn_utmp_t i)
                 :: gorbn_t (Z.shiftr (gorbn_utmp_t i) 16)
                 :: replicate (GORBN_SZARR - 2) 0) = i mod 2 ^ 32).
  { rewrite magnitude_word_pair. unfold gorbn_t, gorbn_utmp_t.
    rewrite Z.shiftr_div_pow2 by lia.
    pose proof (Z.mod_pos_bound i (2 ^ 32) ltac:(lia)).
    Z.div_mod_to_equations. lia. }
  split; [split; [left; reflexivity|]|].
  { apply wf_number_word_pair; apply is_word_gorbn_t. }
  split; [reflexivity|]. rewrite Hm, Z.mul_1_l.
  split; [reflexivity|]. intros Hi. apply Z.mod_small. exact Hi.
Qed.

Lemma gorbn_from_uint_value_witness :
  wf_bignum (gorbn_from_uint gorbn_max 4000000000) ∧
  sign (gorbn_from_uint gorbn_max 4000000000) = 1 ∧
  gorbn_value (gorbn_from_uint gorbn_max 4000000000) = 4000000000 mod 2 ^ 32 ∧
  (0 ≤ 4000000000 < 2 ^ 32 →
   gorbn_value (gorbn_from_uint gorbn_max 4000000000) = 4000000000).
Proof. apply (gorbn_from_uint_value gorbn_max 4000000000). reflexivity. Defined.

(** X4.  For an argument strictly between -2^31 and 2^31, [gorbn_from_int]
    builds a well-formed bignum that stands for the argument; its sign is -1
    exactly when the argument is negative, so zero gets sign +1. *)
Theorem gorbn_from_int_value (n : gorbn_bignum) (i : Z) :
  length (number n) = GORBN_SZARR →
  - 2 ^ 31 < i < 2 ^ 31 →
  wf_bignum (gorbn_from_int n i) ∧
  gorbn_value (gorbn_from_int n i) = i ∧
  (sign (gorbn_from_int n i) = -1 ↔ i < 0).
Proof.
  intros Hn Hi. unfold gorbn_from_int, gorbn_value, wf_bignum. cbn [sign number].
  rewrite (number_from_words n _ _ Hn).
  assert (Hs : gorbn_stmp_t i = i).
  { unfold gorbn_stmp_t. rewrite Z.mod_small by lia. lia. }
  rewrite Hs.
  assert (Ha : 0 ≤ GORBN_ABS i < 2 ^ 31 ∧ GORBN_ABS i = Z.abs i).
  { unfold GORBN_ABS. destruct (Z.leb_spec 0 i); lia. }
  destruct Ha as [Ha Habs].
  assert (Hm : magnitude (gorbn_t (GORBN_ABS i)
                 :: gorbn_t (Z.shiftr (GORBN_ABS i) 16)
                 :: replicate (GORBN_SZARR - 2) 0) = Z.abs i).
  { rewrite magnitude_word_pair, <- Habs. unfold gorbn_t.
    rewrite Z.shiftr_div_pow2 by lia. Z.div_mod_to_equations. lia. }
  rewrite Hm. split; [split|].
  - destruct (i <? 0); [right | left]; reflexivity.
  - apply wf_number_word_pair; apply is_word_gorbn_t.
  - destruct (Z.ltb_spec i 0); split; lia.
Qed.

Lemma gorbn_from_int_value_witness :
  wf_bignum (gorbn_from_int gorbn_max (-70000)) ∧
  gorbn_value (gorbn_from_int gorbn_max (-70000)) = -70000 ∧
  (sign (gorbn_from_int gorbn_max (-70000)) = -1 ↔ -70000 < 0).
Proof.
  apply (gorbn_from_int_value gorbn_max (-70000)).
  - reflexivity.
  - lia.
Defined.

(** ** Zero test and digit count *)

Lemma magnitude_zero_iff (l : list Z) :
  Forall is_word l → magnitude l = 0 ↔ Forall (λ x, x = 0) l.
Proof.
  induction 1 as [|x l Hx Hl IH]; cbn [magnitude].
  - split; [constructor | reflexivity].
  - pose proof (magnitude_bound l Hl) as Hm. unfold is_word in Hx.
    rewrite Forall_cons, <- IH. lia.
Qed.

Lemma is_zero_scan_spec (w : list Z) (count i : nat) :
  (i + count ≤ length w)%nat →
  (is_zero_scan w i count = 1 ↔ Forall (λ x, x = 0) (take count (drop i w))) ∧
  (is_zero_scan w i count = 0 ∨ is_zero_scan w i count = 1).
Proof.
  revert i. induction count as [|count IH]; intros i Hi; cbn [is_zero_scan].
  - split; [|right; reflexivity]. split; [constructor | reflexivity].
  - rewrite (drop_S w (w !!! i) i) by (apply list_lookup_lookup_total_lt; lia).
    cbn [take]. rewrite Forall_cons.
    destruct (IH (S i) ltac:(lia)) as [IH1 IH2].
    destruct (Z.eqb_spec (w !!! i) 0) as [E|E]; cbn [negb].
    + split; [rewrite IH1; tauto | exact IH2].
    + split; [|left; reflexivity]. split; [discriminate | tauto].
Qed.

Lemma gorbn_is_zero_of_magnitude (a : gorbn_bignum) :
  wf_number (number a) → magnitude (number a) = 0 → gorbn_is_zero a = 1.
Proof.
  intros [Hl Hw] Hm. unfold gorbn_is_zero.
  destruct (is_zero_scan_spec (number a) GORBN_SZARR 0 ltac:(lia)) as [H1 _].
  rewrite drop_0, take_ge in H1 by lia.
  apply H1, (magnitude_zero_iff _ Hw), Hm.
Qed.

(** X5.  [gorbn_is_zero] answers 1 when every word is 0, that is when the
    magnitude is 0, and 0 otherwise; the sign plays no part. *)
Theorem gorbn_is_zero_spec (a : gorbn_bignum) :
  wf_number (number a) →
  (gorbn_is_zero a = 1 ↔ Forall (λ x, x = 0) (number a)) ∧
  (gorbn_is_zero a = 1 ↔ magnitude (number a) = 0) ∧
  (gorbn_is_zero a = 0 ↔ magnitude (number a) ≠ 0).
Proof.
  intros [Hl Hw]. unfold gorbn_is_zero.
  destruct (is_zero_scan_spec (number a) GORBN_SZARR 0 ltac:(lia)) as [H1 H2].
  rewrite drop_0, take_ge in H1 by lia.
  pose proof (magnitude_zero_iff _ Hw) as Hm.
  split; [exact H1|]. split; [rewrite Hm; exact H1|].
  rewrite Hm, <- H1. destruct H2 as [-> | ->]; split; congruence.
Qed.

Lemma gorbn_is_zero_spec_witness :
  (gorbn_is_zero (gorbn_from_int gorbn_declared (-7)) = 1
   ↔ Forall (λ x, x = 0) (number (gorbn_from_int gorbn_declared (-7)))) ∧
  (gorbn_is_zero (gorbn_from_int gorbn_declared (-7)) = 1
   ↔ magnitude (number (gorbn_from_int gorbn_declared (-7))) = 0) ∧
  (gorbn_is_zero (gorbn_from_int gorbn_declared (-7)) = 0
   ↔ magnitude (number (gorbn_from_int gorbn_declared (-7))) ≠ 0).
Proof.
  apply (gorbn_is_zero_spec (gorbn_from_int gorbn_declared (-7))). by_evaluation.
Defined.

Lemma magnitude_all_zero (l : list Z) :
  (∀ j, (j < length l)%nat → l !!! j = 0) → magnitude l = 0.
Proof.
  induction l as [|x l IH]; intros H; cbn [magnitude]; [reflexivity|].
  rewrite IH.
  - pose proof (H 0%nat ltac:(simpl; lia)) as H0. simpl in H0. lia.
  - intros j Hj. apply (H (S j)). simpl. lia.
Qed.

Lemma ndigits_scan_spec (w : list Z) (k : nat) :
  (∀ j, (ndigits_scan w k ≤ j < k)%nat → w !!! j = 0) ∧
  (ndigits_scan w k ≠ 0%nat → w !!! (ndigits_scan w k - 1)%nat ≠ 0).
Proof.
  induction k as [|k [IH1 IH2]]; cbn [ndigits_scan].
  - split; [lia | congruence].
  - destruct (Z.eqb_spec (w !!! k) 0) as [E|E]; cbn [negb].
    + split; [|exact IH2]. intros j Hj.
      destruct (decide (j = k)) as [->|Hne]; [exact E | apply IH1; lia].
    + split; [lia|]. intros _. rewrite Nat.sub_succ, Nat.sub_0_r. exact E.
Qed.

(** X6.  [_gorbn_get_ndigits] returns the number of digits of the magnitude
    in base 2^16: 0 exactly for magnitude 0, and otherwise the [n] with
    2^(16(n-1)) <= magnitude < 2^(16n); it is never more than
    [GORBN_SZARR]. *)
Theorem _gorbn_get_ndigits_spec (a : gorbn_bignum) :
  wf_number (number a) →
  (_gorbn_get_ndigits a ≤ GORBN_SZARR)%nat ∧
  magnitude (number a) < radix_pow (_gorbn_get_ndigits a) ∧
  (_gorbn_get_ndigits a ≠ 0%nat →
   radix_pow (_gorbn_get_ndigits a - 1) ≤ magnitude (number a)) ∧
  (_gorbn_get_ndigits a = 0%nat ↔ magnitude (number a) = 0).
Proof.
  intros [Hl Hw]. unfold _gorbn_get_ndigits.
  pose proof (ndigits_scan_le (number a) GORBN_SZARR) as Hle.
  destruct (ndigits_scan_spec (number a) GORBN_SZARR) as [Hz Hnz].
  set (n := ndigits_scan (number a) GORBN_SZARR) in *.
  assert (Hsplit : magnitude (number a) = magnitude (take n (number a))).
  { rewrite <- (take_drop n (number a)) at 1.
    rewrite magnitude_app, (magnitude_all_zero (drop n (number a))); [lia|].
    intros j Hj. rewrite length_drop in Hj.
    rewrite list_lookup_total_alt, lookup_drop, <- list_lookup_total_alt.
    apply Hz. lia. }
  pose proof (magnitude_take_bound (number a) n Hw ltac:(lia)) as Hb.
  assert (Hlow : n ≠ 0%nat → radix_pow (n - 1) ≤ magnitude (number a)).
  { intros Hn. destruct n as [|m]; [congruence|].
    rewrite Nat.sub_succ, Nat.sub_0_r in Hnz |- *.
    rewrite Hsplit, magnitude_take_S by lia.
    pose proof (magnitude_take_bound (number a) m Hw ltac:(lia)).
    pose proof (is_word_lookup_total (number a) m Hw) as Hx. unfold is_word in Hx.
    specialize (Hnz ltac:(congruence)). pose proof (radix_pow_pos m). nia. }
  split; [exact Hle|]. split; [lia|]. split; [exact Hlow|].
  split.
  - intros Hn. rewrite Hsplit, Hn. reflexivity.
  - intros Hm. destruct (decide (n = 0%nat)) as [|Hn]; [assumption|].
    specialize (Hlow Hn). pose proof (radix_pow_pos (n - 1)). lia.
Qed.

Lemma _gorbn_get_ndigits_spec_witness :
  (_gorbn_get_ndigits (gorbn_from_uint gorbn_declared 70000) ≤ GORBN_SZARR)%nat ∧
  magnitude (number (gorbn_from_uint gorbn_declared 70000))
  < radix_pow (_gorbn_get_ndigits (gorbn_from_uint gorbn_declared 70000)) ∧
  (_gorbn_get_ndigits (gorbn_from_uint gorbn_declared 70000) ≠ 0%nat →
   radix_pow (_gorbn_get_ndigits (gorbn_from_uint gorbn_declared 70000) - 1)
   ≤ magnitude (number (gorbn_from_uint gorbn_declared 70000))) ∧
  (_gorbn_get_ndigits (gorbn_from_uint gorbn_declared 70000) = 0%nat
   ↔ magnitude (number (gorbn_from_uint gorbn_declared 70000)) = 0).
Proof.
  apply (_gorbn_get_ndigits_spec (gorbn_from_uint gorbn_declared 70000)).
  by_evaluation.
Defined.

(** ** Comparison *)

(** X7.  [gorbn_cmp_mod] orders two bignums by magnitude alone: LARGER
    exactly when the magnitude of [a] is the larger, SMALLER exactly when it
    is the smaller, EQUAL exactly when the word arrays are the same. *)
Theorem gorbn_cmp_mod_order (a b : gorbn_bignum) :
  wf_number (number a) → wf_number (number b) →
  (gorbn_cmp_mod a b = GORBN_CMP_LARGER ↔ magnitude (number b) < magnitude (number a)) ∧
  (gorbn_cmp_mod a b = GORBN_CMP_SMALLER ↔ magnitude (number a) < magnitude (number b)) ∧
  (gorbn_cmp_mod a b = GORBN_CMP_EQUAL ↔ number a = number b).
Proof.
  intros Ha Hb. rewrite (gorbn_cmp_mod_spec a b Ha Hb).
  unfold GORBN_CMP_LARGER, GORBN_CMP_SMALLER, GORBN_CMP_EQUAL.
  assert (Heq : magnitude (number a) = magnitude (number b) ↔ number a = number b).
  { split; [|congruence]. intros Hm.
    apply magnitude_inj; [apply Ha | apply Hb | | exact Hm].
    rewrite (proj1 Ha), (proj1 Hb). reflexivity. }
  rewrite <- Heq.
  destruct (Z.compare_spec (magnitude (number a)) (magnitude (number b)));
    repeat split; lia.
Qed.

Lemma gorbn_cmp_mod_order_witness :
  let a := gorbn_from_int gorbn_declared (-9) in
  let b := gorbn_from_uint gorbn_declared 4 in
  (gorbn_cmp_mod a b = GORBN_CMP_LARGER ↔ magnitude (number b) < magnitude (number a)) ∧
  (gorbn_cmp_mod a b = GORBN_CMP_SMALLER ↔ magnitude (number a) < magnitude (number b)) ∧
  (gorbn_cmp_mod a b = GORBN_CMP_EQUAL ↔ number a = number b).
Proof.
  cbv zeta.
  apply (gorbn_cmp_mod_order (gorbn_from_int gorbn_declared (-9))
           (gorbn_from_uint gorbn_declared 4)); by_evaluation.
Defined.

Lemma cmp_scan_antisym (a b : list Z) (k : nat) :
  cmp_scan b a k = - cmp_scan a b k.
Proof.
  induction k as [|k IH]; cbn [cmp_scan]; [reflexivity|].
  unfold GORBN_CMP_LARGER, GORBN_CMP_SMALLER.
  destruct (Z.ltb_spec (a !!! k) (b !!! k)), (Z.ltb_spec (b !!! k) (a !!! k)); lia.
Qed.

Lemma cmp_scan_range (a b : list Z) (k : nat) :
  cmp_scan a b k = GORBN_CMP_LARGER ∨ cmp_scan a b k = GORBN_CMP_EQUAL ∨
  cmp_scan a b k = GORBN_CMP_SMALLER.
Proof.
  induction k as [|k IH]; cbn [cmp_scan]; [right; left; reflexivity|].
  destruct (b !!! k <? a !!! k); [left; reflexivity|].
  destruct (a !!! k <? b !!! k); [right; right; reflexivity | exact IH].
Qed.

(** X8.  For operands whose sign fields are +1 or -1 (zeros of either sign
    included), [gorbn_cmp] answers LARGER, EQUAL or SMALLER, and exchanging
    the operands negates the answer: LARGER becomes SMALLER, SMALLER becomes
    LARGER, EQUAL stays.  (For such signs the product [mod_res * a->sign] of
    the source is exact.) *)
Theorem gorbn_cmp_antisym (a b : gorbn_bignum) :
  wf_bignum a → wf_bignum b →
  (gorbn_cmp a b = GORBN_CMP_LARGER ∨ gorbn_cmp a b = GORBN_CMP_EQUAL ∨
   gorbn_cmp a b = GORBN_CMP_SMALLER) ∧
  gorbn_cmp b a = - gorbn_cmp a b.
Proof.
  intros [Hsa _] [Hsb _]. split.
  - unfold gorbn_cmp.
    destruct (Z.eqb_spec (sign a) (sign b)) as [E|E]; cbn [negb].
    + pose proof (cmp_scan_range (number a) (number b) GORBN_SZARR) as Hr.
      unfold GORBN_CMP_LARGER, GORBN_CMP_EQUAL, GORBN_CMP_SMALLER in *.
      destruct Hsa as [-> | ->]; lia.
    + destruct (sign b <? sign a); [left | right; right]; reflexivity.
  - unfold gorbn_cmp. rewrite (Z.eqb_sym (sign b) (sign a)).
    destruct (Z.eqb_spec (sign a) (sign b)) as [E|E]; cbn [negb].
    + rewrite (cmp_scan_antisym (number a) (number b)), E. ring.
    + unfold GORBN_CMP_LARGER, GORBN_CMP_SMALLER.
      destruct (Z.ltb_spec (sign a) (sign b)), (Z.ltb_spec (sign b) (sign a)); lia.
Qed.

Lemma gorbn_cmp_antisym_witness :
  let a := gorbn_from_int gorbn_declared (-5) in
  let b := gorbn_from_uint gorbn_declared 3 in
  (gorbn_cmp a b = GORBN_CMP_LARGER ∨ gorbn_cmp a b = GORBN_CMP_EQUAL ∨
   gorbn_cmp a b = GORBN_CMP_SMALLER) ∧
  gorbn_cmp b a = - gorbn_cmp a b.
Proof.
  cbv zeta.
  apply (gorbn_cmp_antisym (gorbn_from_int gorbn_declared (-5))
           (gorbn_from_uint gorbn_declared 3)); by_evaluation.
Defined.

(** ** Signed sums *)

Lemma gorbn_add_sub_same_sign_witness :
  (r ← gorbn_add gorbn_declared (gorbn_from_int gorbn_declared (-70000))
         (gorbn_from_int gorbn_declared (-5));
   gorbn_sub gorbn_max r (gorbn_from_int gorbn_declared (-5)))
  = Ok (gorbn_from_int gorbn_declared (-70000)).
Proof.
  apply (gorbn_add_sub_same_sign gorbn_declared gorbn_max
           (gorbn_from_int gorbn_declared (-70000)) (gorbn_from_int gorbn_declared (-5)));
    try reflexivity; by_evaluation.
Defined.

(** What [_gorbn_internal_addition] leaves when the effective signs are the
    same. *)
Lemma _gorbn_internal_addition_same (dst a b : gorbn_bignum) (a_sign b_sign : Z) :
  length (number dst) = GORBN_SZARR →
  wf_number (number a) → wf_number (number b) →
  a_sign = b_sign →
  wf_number (number (_gorbn_internal_addition dst a a_sign b b_sign)) ∧
  magnitude (number (_gorbn_internal_addition dst a a_sign b b_sign))
  = (magnitude (number a) + magnitude (number b)) mod radix_pow GORBN_SZARR ∧
  sign (_gorbn_internal_addition dst a a_sign b b_sign) = a_sign.
Proof.
  intros Hd Ha Hb Hs.
  destruct (add_loop_inv dst a b Hd Ha Hb) as [Hlen Hc Hw Hsum].
  unfold _gorbn_internal_addition.
  rewrite Hs, Z.eqb_refl. destruct (add_loop dst a b) as [w c]. simpl in *.
  rewrite take_ge in Hw by lia. rewrite take_ge in Hsum by lia.
  destruct Ha as [Hla Ha], Hb as [Hlb Hb]. rewrite !take_ge in Hsum by lia.
  pose proof (magnitude_bound _ Hw) as Hm. rewrite Hlen, Hd in Hm.
  split; [split; [lia | exact Hw]|]. split; [|reflexivity].
  rewrite <- Hsum. pose proof (radix_pow_pos GORBN_SZARR) as HR.
  destruct Hc as [-> | ->].
  - apply Z.mod_unique with (q := 0); lia.
  - apply Z.mod_unique with (q := 1); lia.
Qed.

(** The signed value [_gorbn_internal_addition] leaves, for effective signs
    of +1 or -1: the signed sum, unless the first operand is negative, the
    second positive and of larger magnitude. *)
Lemma _gorbn_internal_addition_value (dst a b : gorbn_bignum) (a_sign b_sign : Z) :
  length (number dst) = GORBN_SZARR →
  wf_number (number a) → wf_number (number b) →
  (a_sign = 1 ∨ a_sign = -1) → (b_sign = 1 ∨ b_sign = -1) →
  (a_sign = b_sign →
   magnitude (number a) + magnitude (number b) < radix_pow GORBN_SZARR) →
  ¬ (a_sign = -1 ∧ b_sign = 1 ∧ magnitude (number a) < magnitude (number b)) →
  wf_bignum (_gorbn_internal_addition dst a a_sign b b_sign) ∧
  gorbn_value (_gorbn_internal_addition dst a a_sign b b_sign)
  = a_sign * magnitude (number a) + b_sign * magnitude (number b).
Proof.
  intros Hd Ha Hb Hsa Hsb Hfit Hbad. unfold gorbn_value, wf_bignum.
  pose proof (magnitude_bound _ (proj2 Ha)) as Hma.
  pose proof (magnitude_bound _ (proj2 Hb)) as Hmb.
  destruct (decide (a_sign = b_sign)) as [E|E].
  - destruct (_gorbn_internal_addition_same dst a b a_sign b_sign Hd Ha Hb E)
      as (Hwf & Hmag & Hsign).
    rewrite Hsign, Hmag, Z.mod_small by (specialize (Hfit E); lia).
    split; [split; [exact Hsa | exact Hwf]|]. rewrite <- E. ring.
  - destruct (_gorbn_internal_addition_differ dst a b a_sign b_sign Hd Ha Hb E)
      as (Hwf & Hmag & Hsign).
    rewrite Hsign, Hmag.
    destruct (Z.leb_spec (magnitude (number b)) (magnitude (number a)));
      destruct Hsa as [-> | ->], Hsb as [-> | ->]; try congruence; cbn [Z.ltb Z.compare andb];
      (split; [split; [tauto | exact Hwf]|]); lia.
Qed.

(** X9.  [gorbn_add] returns the signed sum of its operands when the sum
    fits (for operands of the same sign) and the operands are not a negative
    [a] with a positive [b] of larger magnitude. *)
Theorem gorbn_add_value (r a b : gorbn_bignum) :
  length (number r) = GORBN_SZARR → wf_bignum a → wf_bignum b →
  (sign a = sign b →
   magnitude (number a) + magnitude (number b) < radix_pow GORBN_SZARR) →
  ¬ (sign a = -1 ∧ sign b = 1 ∧ magnitude (number a) < magnitude (number b)) →
  ∃ r', gorbn_add r a b = Ok r' ∧ wf_bignum r' ∧
        gorbn_value r' = gorbn_value a + gorbn_value b.
Proof.
  intros Hr [Hsa Ha] [Hsb Hb] Hfit Hbad. eexists. split; [reflexivity|].
  apply _gorbn_internal_addition_value; assumption.
Qed.

Lemma gorbn_add_value_witness :
  ∃ r', gorbn_add gorbn_declared (gorbn_from_uint gorbn_declared 3)
          (gorbn_from_int gorbn_declared (-70000)) = Ok r' ∧ wf_bignum r' ∧
        gorbn_value r' = gorbn_value (gorbn_from_uint gorbn_declared 3)
                         + gorbn_value (gorbn_from_int gorbn_declared (-70000)).
Proof.
  apply (gorbn_add_value gorbn_declared (gorbn_from_uint gorbn_declared 3)
           (gorbn_from_int gorbn_declared (-70000))).
  - reflexivity.
  - by_evaluation.
  - by_evaluation.
  - intros H. vm_compute in H. discriminate H.
  - intros (H & _ & _). vm_compute in H. discriminate H.
Defined.

(** X10.  [gorbn_sub] returns the signed difference of its operands when the
    difference fits (for operands of different signs) and the operands are
    not two negative numbers of which [a] has the smaller magnitude. *)
Theorem gorbn_sub_value (r a b : gorbn_bignum) :
  length (number r) = GORBN_SZARR → wf_bignum a → wf_bignum b →
  (sign a ≠ sign b →
   magnitude (number a) + magnitude (number b) < radix_pow GORBN_SZARR) →
  ¬ (sign a = -1 ∧ sign b = -1 ∧ magnitude (number a) < magnitude (number b)) →
  ∃ r', gorbn_sub r a b = Ok r' ∧ wf_bignum r' ∧
        gorbn_value r' = gorbn_value a - gorbn_value b.
Proof.
  intros Hr [Hsa Ha] [Hsb Hb] Hfit Hbad. eexists. split; [reflexivity|].
  destruct (_gorbn_internal_addition_value r a b (sign a) (sign b * -1) Hr Ha Hb Hsa)
    as [Hwf Hval]; [lia | intros E; apply Hfit; lia | intros (? & ? & ?); apply Hbad; lia |].
  split; [exact Hwf|]. rewrite Hval. unfold gorbn_value. ring.
Qed.

Lemma gorbn_sub_value_witness :
  ∃ r', gorbn_sub gorbn_declared (gorbn_from_int gorbn_declared (-70000))
          (gorbn_from_int gorbn_declared (-3)) = Ok r' ∧ wf_bignum r' ∧
        gorbn_value r' = gorbn_value (gorbn_from_int gorbn_declared (-70000))
                         - gorbn_value (gorbn_from_int gorbn_declared (-3)).
Proof.
  apply (gorbn_sub_value gorbn_declared (gorbn_from_int gorbn_declared (-70000))
           (gorbn_from_int gorbn_declared (-3))).
  - reflexivity.
  - by_evaluation.
  - by_evaluation.
  - intros H. exfalso. apply H. reflexivity.
  - intros (_ & _ & H). vm_compute in H. discriminate H.
Defined.

(** X11.  For operands of the same sign [gorbn_add] does not depend on their
    order, also when the sum wraps around. *)
Theorem gorbn_add_comm_same_sign (r r' a b : gorbn_bignum) :
  length (number r) = GORBN_SZARR → length (number r') = GORBN_SZARR →
  wf_number (number a) → wf_number (number b) →
  sign a = sign b →
  gorbn_add r a b = gorbn_add r' b a.
Proof.
  intros Hr Hr' Ha Hb Hs. unfold gorbn_add. f_equal.
  destruct (_gorbn_internal_addition_same r a b (sign a) (sign b) Hr Ha Hb Hs)
    as (Hwf1 & Hm1 & Hs1).
  destruct (_gorbn_internal_addition_same r' b a (sign b) (sign a) Hr' Hb Ha (eq_sym Hs))
    as (Hwf2 & Hm2 & Hs2).
  destruct (_gorbn_internal_addition r a (sign a) b (sign b)) as [s1 w1].
  destruct (_gorbn_internal_addition r' b (sign b) a (sign a)) as [s2 w2].
  simpl in *. f_equal; [congruence|].
  apply magnitude_inj; [apply Hwf1 | apply Hwf2 | |].
  - rewrite (proj1 Hwf1), (proj1 Hwf2). reflexivity.
  - rewrite Hm1, Hm2, (Z.add_comm (magnitude (number b))). reflexivity.
Qed.

Lemma gorbn_add_comm_same_sign_witness :
  gorbn_add gorbn_declared gorbn_max (gorbn_from_uint gorbn_declared 9)
  = gorbn_add gorbn_max (gorbn_from_uint gorbn_declared 9) gorbn_max.
Proof.
  apply (gorbn_add_comm_same_sign gorbn_declared gorbn_max gorbn_max
           (gorbn_from_uint gorbn_declared 9)); try reflexivity; by_evaluation.
Defined.

(** X12.  [gorbn_sub] of a bignum from itself leaves a zero, which
    [gorbn_is_zero] recognises; its sign is the sign of the operand, so a
    negative operand gives a zero of sign -1. *)
Theorem gorbn_sub_self (r a : gorbn_bignum) :
  length (number r) = GORBN_SZARR → wf_bignum a →
  ∃ r', gorbn_sub r a a = Ok r' ∧ gorbn_is_zero r' = 1 ∧
        gorbn_value r' = 0 ∧ sign r' = sign a.
Proof.
  intros Hr [Hs Ha]. eexists. split; [reflexivity|].
  destruct (_gorbn_internal_addition_differ r a a (sign a) (sign a * -1) Hr Ha Ha)
    as (Hwf & Hmag & Hsign); [lia|].
  rewrite Z.sub_diag in Hmag. cbn [Z.abs] in Hmag.
  rewrite Z.leb_refl, andb_true_r in Hsign.
  split; [apply gorbn_is_zero_of_magnitude; assumption|].
  split; [unfold gorbn_value; rewrite Hmag; apply Z.mul_0_r|].
  rewrite Hsign. destruct Hs as [-> | ->]; reflexivity.
Qed.

Lemma gorbn_sub_self_witness :
  ∃ r', gorbn_sub gorbn_declared (gorbn_from_int gorbn_declared (-70000))
          (gorbn_from_int gorbn_declared (-70000)) = Ok r' ∧
        gorbn_is_zero r' = 1 ∧ gorbn_value r' = 0 ∧
        sign r' = sign (gorbn_from_int gorbn_declared (-70000)).
Proof.
  apply (gorbn_sub_self gorbn_declared (gorbn_from_int gorbn_declared (-70000))).
  - reflexivity.
  - by_evaluation.
Defined.

(** ** Shifts by whole words *)

Lemma for_down_ind {St : Type} (P : nat → St → Prop) (body : nat → St → St)
    (lo count : nat) (s : St) :
  P (lo + count)%nat s →
  (∀ i t, (lo ≤ i < lo + count)%nat → P (S i) t → P i (body i t)) →
  P lo (for_down lo count body s).
Proof.
  revert s. induction count as [|count IH]; intros s H0 Hstep; cbn [for_down].
  - rewrite Nat.add_0_r in H0. exact H0.
  - apply IH.
    + apply Hstep; [lia|]. rewrite Nat.add_succ_r in H0. exact H0.
    + intros i t Hi. apply Hstep. lia.
Qed.

Lemma radix_pow_add (m k : nat) : radix_pow (m + k) = radix_pow m * radix_pow k.
Proof.
  unfold radix_pow. rewrite Nat2Z.inj_add, Z.mul_add_distr_l, Z.pow_add_r by lia.
  reflexivity.
Qed.

Lemma store_lookup_total (w : list Z) (i j : nat) (v : Z) :
  (i < length w)%nat →
  store w i v !!! j = if decide (i = j) then gorbn_t v else w !!! j.
Proof.
  intros Hi. unfold store. case_decide as E.
  - subst j. apply list_lookup_total_insert_eq. exact Hi.
  - apply list_lookup_total_insert_ne. exact E.
Qed.

Lemma list_eq_total (l1 l2 : list Z) :
  length l1 = length l2 →
  (∀ j, (j < length l1)%nat → l1 !!! j = l2 !!! j) → l1 = l2.
Proof.
  intros Hlen H. apply list_eq_same_length with (length l1); [lia | reflexivity |].
  intros i x y Hi Hx Hy.
  apply list_lookup_total_correct in Hx, Hy. rewrite <- Hx, <- Hy. apply H, Hi.
Qed.

(** Word by word, what [_gorbn_lshift_word] leaves. *)
Lemma _gorbn_lshift_word_lookup (a : gorbn_bignum) (nwords : nat) :
  wf_number (number a) →
  length (number (_gorbn_lshift_word a nwords)) = GORBN_SZARR ∧
  (∀ j, (j < nwords)%nat → (j < GORBN_SZARR)%nat →
        number (_gorbn_lshift_word a nwords) !!! j = 0) ∧
  (∀ j, (nwords ≤ j < GORBN_SZARR)%nat →
        number (_gorbn_lshift_word a nwords) !!! j = number a !!! (j - nwords)%nat).
Proof.
  intros [Hl Hw]. unfold _gorbn_lshift_word. cbn [number].
  set (w1 := for_down nwords _ _ (number a)).
  assert (H1 : length w1 = GORBN_SZARR ∧
               (∀ k, (nwords ≤ k < GORBN_SZARR)%nat →
                     w1 !!! k = number a !!! (k - nwords)%nat) ∧
               (∀ k, (k < nwords)%nat → w1 !!! k = number a !!! k)).
  { unfold w1.
    apply (for_down_ind (λ i w, length w = GORBN_SZARR ∧
             (∀ k, (i ≤ k < GORBN_SZARR)%nat → w !!! k = number a !!! (k - nwords)%nat) ∧
             (∀ k, (k < i)%nat → w !!! k = number a !!! k))).
    - split; [exact Hl|]. split; [intros k Hk; lia | intros k Hk; reflexivity].
    - intros i w Hi (Hlen & Hhi & Hlo).
      split; [unfold store; rewrite length_insert; exact Hlen|].
      split; intros k Hk; rewrite store_lookup_total by lia.
      + destruct (decide (i = k)) as [->|Hne]; [|apply Hhi; lia].
        rewrite Hlo by lia. apply gorbn_t_word, is_word_lookup_total, Hw.
      + rewrite decide_False by lia. apply Hlo. lia. }
  destruct H1 as (Hl1 & Hhi1 & Hlo1).
  set (m := min nwords GORBN_SZARR).
  destruct (for_down_ind (λ i w, length w = GORBN_SZARR ∧
           (∀ j, (j < nwords)%nat → (j < GORBN_SZARR)%nat → (i ≤ j)%nat → w !!! j = 0) ∧
           (∀ j, (nwords ≤ j < GORBN_SZARR)%nat → w !!! j = number a !!! (j - nwords)%nat))
         (λ i w, store w i 0) 0 m w1) as (Hl2 & Hz2 & Hhi2).
  - split; [exact Hl1|]. split; [intros j Hj1 Hj2 Hj3; lia | exact Hhi1].
  - intros i w Hi (Hlen & Hz & Hhi).
    split; [unfold store; rewrite length_insert; exact Hlen|].
    split; intros j Hj; [intros Hj2 Hj3|]; rewrite store_lookup_total by lia.
    + destruct (decide (i = j)) as [->|Hne]; [reflexivity | apply Hz; lia].
    + rewrite decide_False by lia. apply Hhi. lia.
  - split; [exact Hl2|]. split; [|exact Hhi2].
    intros j Hj1 Hj2. apply Hz2; lia.
Qed.

(** X14.  [_gorbn_lshift_word] moves every word up by [nwords] places and
    clears the places below; the words that pass the top of the array are
    lost, so the magnitude is multiplied by 2^(16 * nwords) modulo
    2^(16 * GORBN_SZARR).  The sign stays. *)
Theorem _gorbn_lshift_word_spec (a : gorbn_bignum) (nwords : nat) :
  wf_number (number a) →
  sign (_gorbn_lshift_word a nwords) = sign a ∧
  wf_number (number (_gorbn_lshift_word a nwords)) ∧
  number (_gorbn_lshift_word a nwords)
  = replicate (min nwords GORBN_SZARR) 0 ++ take (GORBN_SZARR - nwords) (number a) ∧
  magnitude (number (_gorbn_lshift_word a nwords))
  = (magnitude (number a) * radix_pow nwords) mod radix_pow GORBN_SZARR.
Proof.
  intros Ha. pose proof Ha as [Hl Hw].
  assert (Hnum : number (_gorbn_lshift_word a nwords)
                 = replicate (min nwords GORBN_SZARR) 0
                   ++ take (GORBN_SZARR - nwords) (number a)).
  { destruct (_gorbn_lshift_word_lookup a nwords Ha) as (Hlen & Hz & Hhi).
    apply list_eq_total.
    - rewrite Hlen, length_app, length_replicate, length_take_le by lia. lia.
    - intros j Hj. rewrite Hlen in Hj.
      destruct (decide (j < nwords)%nat) as [Hlt|Hge].
      + rewrite Hz by assumption.
        rewrite lookup_total_app_l by (rewrite length_replicate; lia).
        rewrite lookup_total_replicate_2 by lia. reflexivity.
      + rewrite Hhi by lia.
        rewrite lookup_total_app_r by (rewrite length_replicate; lia).
        rewrite length_replicate, lookup_total_take, decide_True by lia.
        f_equal. lia. }
  split; [reflexivity|]. rewrite Hnum.
  assert (Hwf : wf_number (replicate (min nwords GORBN_SZARR) 0
                           ++ take (GORBN_SZARR - nwords) (number a))).
  { split.
    - rewrite length_app, length_replicate, length_take_le by lia. lia.
    - apply Forall_app_2; [apply Forall_replicate; unfold is_word; lia|].
      apply Forall_take, Hw. }
  split; [exact Hwf|]. split; [reflexivity|].
  rewrite magnitude_app, magnitude_replicate_0, length_replicate, Z.add_0_l.
  pose proof (radix_pow_pos GORBN_SZARR) as HR.
  destruct (decide (nwords ≤ GORBN_SZARR)%nat) as [Hle|Hgt].
  - rewrite Nat.min_l by lia.
    pose proof (magnitude_take_bound (number a) (GORBN_SZARR - nwords) Hw ltac:(lia)) as Hb.
    assert (Hsplit : magnitude (number a)
                     = magnitude (take (GORBN_SZARR - nwords) (number a))
                       + radix_pow (GORBN_SZARR - nwords)
                         * magnitude (drop (GORBN_SZARR - nwords) (number a))).
    { rewrite <- (take_drop (GORBN_SZARR - nwords) (number a)) at 1.
      rewrite magnitude_app, length_take_le by lia. reflexivity. }
    assert (HRR : radix_pow GORBN_SZARR
                  = radix_pow nwords * radix_pow (GORBN_SZARR - nwords)).
    { rewrite <- radix_pow_add. f_equal. lia. }
    pose proof (radix_pow_pos nwords). pose proof (radix_pow_pos (GORBN_SZARR - nwords)).
    apply Z.mod_unique with (q := magnitude (drop (GORBN_SZARR - nwords) (number a)));
      [left; nia|]. rewrite Hsplit, HRR. ring.
  - rewrite Nat.min_r by lia.
    replace (GORBN_SZARR - nwords)%nat with 0%nat by lia. rewrite take_0. cbn [magnitude].
    replace nwords with (GORBN_SZARR + (nwords - GORBN_SZARR))%nat at 1 by lia.
    rewrite radix_pow_add, Z.mul_0_r.
    apply Z.mod_unique with
      (q := magnitude (number a) * radix_pow (nwords - GORBN_SZARR)); [left; lia | ring].
Qed.

Lemma _gorbn_lshift_word_spec_witness :
  sign (_gorbn_lshift_word gorbn_max 3) = sign gorbn_max ∧
  wf_number (number (_gorbn_lshift_word gorbn_max 3)) ∧
  number (_gorbn_lshift_word gorbn_max 3)
  = replicate (min 3 GORBN_SZARR) 0 ++ take (GORBN_SZARR - 3) (number gorbn_max) ∧
  magnitude (number (_gorbn_lshift_word gorbn_max 3))
  = (magnitude (number gorbn_max) * radix_pow 3) mod radix_pow GORBN_SZARR.
Proof. apply (_gorbn_lshift_word_spec gorbn_max 3). by_evaluation. Defined.

Lemma for_range_app {St : Type} (body : nat → St → result St)
    (c1 c2 start : nat) (s : St) :
  for_range start (c1 + c2) body s
  = t ← for_range start c1 body s; for_range (start + c1) c2 body t.
Proof.
  revert start s. induction c1 as [|c1 IH]; intros start s; cbn [for_range Nat.add].
  - cbn. rewrite Nat.add_0_r. reflexivity.
  - destruct (body start s) as [s'|e]; cbn [mbind result_bind]; [|reflexivity].
    rewrite IH, Nat.add_succ_comm. reflexivity.
Qed.

Lemma for_range_ind_from {St : Type} (P : nat → St → Prop)
    (body : nat → St → result St) (count start : nat) (s : St) :
  P start s →
  (∀ i t, (start ≤ i < start + count)%nat → P i t → ∃ t', body i t = Ok t' ∧ P (S i) t') →
  ∃ t, for_range start count body s = Ok t ∧ P (start + count)%nat t.
Proof.
  revert start s. induction count as [|count IH]; intros start s Hs Hstep.
  - exists s. rewrite Nat.add_0_r. split; [reflexivity | exact Hs].
  - destruct (Hstep start s ltac:(lia) Hs) as (s' & Hs' & HP).
    cbn [for_range]. rewrite Hs'. cbn [mbind result_bind].
    rewrite <- Nat.add_succ_comm. apply IH; [exact HP|].
    intros i t Hi. apply Hstep. lia.
Qed.

Lemma wr_lt_store (w : list Z) (i : nat) (v : Z) :
  (i < length w)%nat → wr w i v = Ok (store w i v).
Proof. apply wr_lt. Qed.

Lemma rd_ge (w : list Z) (i : nat) :
  (length w ≤ i)%nat → rd w i = Err OutOfBounds.
Proof. intros Hi. unfold rd. rewrite lookup_ge_None_2 by exact Hi. reflexivity. Qed.

(** X15.  With [nwords] at most half of [GORBN_SZARR], [_gorbn_rshift_word]
    returns the [nwords] words that stood at indices [nwords] to
    [2 * nwords - 1] in the places 0 to [nwords - 1] and clears every other
    place: the words from index [2 * nwords] up are dropped, not moved.  The
    magnitude it leaves is the quotient by 2^(16 * nwords) reduced modulo
    2^(16 * nwords). *)
Theorem _gorbn_rshift_word_spec (a : gorbn_bignum) (nwords : nat) :
  wf_number (number a) → (2 * nwords ≤ GORBN_SZARR)%nat →
  ∃ r, _gorbn_rshift_word a nwords = Ok r ∧ sign r = sign a ∧
       wf_number (number r) ∧
       number r = take nwords (drop nwords (number a))
                  ++ replicate (GORBN_SZARR - nwords) 0 ∧
       magnitude (number r)
       = (magnitude (number a) / radix_pow nwords) mod radix_pow nwords.
Proof.
  intros [Hl Hw] Hn. unfold _gorbn_rshift_word.
  destruct (for_range_ind_from
              (λ k w, length w = GORBN_SZARR ∧
                 (∀ j, (j < k)%nat → w !!! j = number a !!! (j + nwords)%nat) ∧
                 (∀ j, (k ≤ j < GORBN_SZARR)%nat → w !!! j = number a !!! j))
              (λ i w, v ← rd w (i + nwords); wr w i v) nwords 0 (number a))
    as (w1 & Hw1 & Hlen1 & Hlo1 & _).
  { split; [exact Hl|]. split; [intros j Hj; lia | intros j Hj; reflexivity]. }
  { intros i w Hi (Hlen & Hlo & Hhi).
    rewrite rd_lt by lia. cbn [mbind result_bind]. rewrite wr_lt_store by lia.
    eexists. split; [reflexivity|].
    split; [unfold store; rewrite length_insert; exact Hlen|].
    split; intros j Hj; rewrite store_lookup_total by lia.
    - destruct (decide (i = j)) as [->|Hne]; [|apply Hlo; lia].
      rewrite Hhi by lia. apply gorbn_t_word, is_word_lookup_total, Hw.
    - rewrite decide_False by lia. apply Hhi. lia. }
  rewrite Hw1. cbn [mbind result_bind]. rewrite Nat.add_0_l in Hlo1.
  destruct (for_range_ind_from
              (λ k w, length w = GORBN_SZARR ∧
                 (∀ j, (j < nwords)%nat → w !!! j = number a !!! (j + nwords)%nat) ∧
                 (∀ j, (nwords ≤ j < k)%nat → w !!! j = 0))
              (λ i w, wr w i 0) (GORBN_SZARR - nwords) nwords w1)
    as (w2 & Hw2 & Hlen2 & Hlo2 & Hz2).
  { split; [exact Hlen1|]. split; [exact Hlo1 | intros j Hj; lia]. }
  { intros i w Hi (Hlen & Hlo & Hz). rewrite wr_lt_store by lia.
    eexists. split; [reflexivity|].
    split; [unfold store; rewrite length_insert; exact Hlen|].
    split; intros j Hj; rewrite store_lookup_total by lia.
    - rewrite decide_False by lia. apply Hlo. exact Hj.
    - destruct (decide (i = j)) as [->|Hne]; [reflexivity | apply Hz; lia]. }
  rewrite Hw2. cbn [mbind result_bind]. eexists. split; [reflexivity|].
  cbn [sign number]. split; [reflexivity|].
  assert (Hnum : w2 = take nwords (drop nwords (number a))
                      ++ replicate (GORBN_SZARR - nwords) 0).
  { apply list_eq_total.
    - rewrite Hlen2, length_app, length_replicate, length_take_le
        by (rewrite length_drop; lia). lia.
    - intros j Hj. rewrite Hlen2 in Hj.
      destruct (decide (j < nwords)%nat) as [Hlt|Hge].
      + rewrite Hlo2 by exact Hlt.
        rewrite lookup_total_app_l by (rewrite length_take_le; [lia | rewrite length_drop; lia]).
        rewrite lookup_total_take, decide_True by lia.
        rewrite lookup_total_drop. f_equal. lia.
      + rewrite Hz2 by lia.
        rewrite lookup_total_app_r by (rewrite length_take_le; [lia | rewrite length_drop; lia]).
        rewrite lookup_total_replicate_2; [reflexivity|].
        rewrite length_take_le by (rewrite length_drop; lia). lia. }
  rewrite Hnum.
  assert (Hw1' : Forall is_word (take nwords (drop nwords (number a))))
    by apply Forall_take, Forall_drop, Hw.
  split.
  { split.
    - rewrite length_app, length_replicate, length_take_le by (rewrite length_drop; lia). lia.
    - apply Forall_app_2; [exact Hw1'|]. apply Forall_replicate. unfold is_word. lia. }
  split; [reflexivity|].
  rewrite magnitude_app, magnitude_replicate_0, Z.mul_0_r, Z.add_0_r.
  pose proof (magnitude_bound _ Hw1') as Hb1.
  rewrite length_take_le in Hb1 by (rewrite length_drop; lia).
  pose proof (magnitude_take_bound (number a) nwords Hw ltac:(lia)) as Hb0.
  assert (Hsplit : magnitude (number a)
                   = magnitude (take nwords (number a))
                     + radix_pow nwords
                       * (magnitude (take nwords (drop nwords (number a)))
                          + radix_pow nwords
                            * magnitude (drop nwords (drop nwords (number a))))).
  { rewrite <- (take_drop nwords (number a)) at 1.
    rewrite magnitude_app, length_take_le by lia.
    rewrite <- (take_drop nwords (drop nwords (number a))) at 1.
    rewrite magnitude_app, length_take_le by (rewrite length_drop; lia). reflexivity. }
  pose proof (radix_pow_pos nwords) as HR.
  set (M0 := magnitude (take nwords (number a))) in *.
  set (M1 := magnitude (take nwords (drop nwords (number a)))) in *.
  set (M2 := magnitude (drop nwords (drop nwords (number a)))) in *.
  assert (Hdiv : magnitude (number a) / radix_pow nwords = M1 + radix_pow nwords * M2).
  { symmetry. apply Z.div_unique with (r := M0); [left; lia | rewrite Hsplit; ring]. }
  rewrite Hdiv. apply Z.mod_unique with (q := M2); [left; lia | ring].
Qed.

Lemma _gorbn_rshift_word_spec_witness :
  ∃ r, _gorbn_rshift_word gorbn_max 3 = Ok r ∧ sign r = sign gorbn_max ∧
       wf_number (number r) ∧
       number r = take 3 (drop 3 (number gorbn_max)) ++ replicate (GORBN_SZARR - 3) 0 ∧
       magnitude (number r) = (magnitude (number gorbn_max) / radix_pow 3) mod radix_pow 3.
Proof.
  apply (_gorbn_rshift_word_spec gorbn_max 3); by_evaluation.
Defined.

(** X16.  With [nwords] more than half of [GORBN_SZARR],
    [_gorbn_rshift_word] reads past the end of the array: the round
    [i = GORBN_SZARR - nwords] of its first loop reads index
    [GORBN_SZARR]. *)
Theorem _gorbn_rshift_word_out_of_bounds (a : gorbn_bignum) (nwords : nat) :
  length (number a) = GORBN_SZARR → (GORBN_SZARR < 2 * nwords)%nat →
  _gorbn_rshift_word a nwords = Err OutOfBounds.
Proof.
  intros Hl Hn. unfold _gorbn_rshift_word.
  set (body := λ (i : nat) (w : list Z), v ← rd w (i + nwords); wr w i v).
  replace nwords with ((GORBN_SZARR - nwords) + S (nwords - S (GORBN_SZARR - nwords)))%nat
    at 1 by lia.
  rewrite for_range_app.
  destruct (for_range_ind_from (λ _ w, length w = GORBN_SZARR) body
              (GORBN_SZARR - nwords) 0 (number a) Hl) as (w1 & Hw1 & Hlen1).
  { intros i w Hi Hlen. unfold body.
    rewrite rd_lt by lia. cbn [mbind result_bind]. rewrite wr_lt_store by lia.
    eexists. split; [reflexivity|]. unfold store. rewrite length_insert. exact Hlen. }
  rewrite Hw1. cbn [mbind result_bind for_range]. subst body. cbv beta.
  rewrite rd_ge by lia. reflexivity.
Qed.

Lemma _gorbn_rshift_word_out_of_bounds_witness :
  _gorbn_rshift_word gorbn_max 65 = Err OutOfBounds.
Proof.
  apply (_gorbn_rshift_word_out_of_bounds gorbn_max 65).
  - reflexivity.
  - by_evaluation.
Defined.

(** ** Shifts by one bit *)

Lemma lor_disjoint (u v n : Z) :
  0 ≤ n → 0 ≤ u < 2 ^ n → Z.lor u (v * 2 ^ n) = u + v * 2 ^ n.
Proof.
  intros Hn Hu.
  assert (Hland : Z.land u (v * 2 ^ n) = 0).
  { apply Z.bits_inj'. intros m Hm. rewrite Z.land_spec, Z.bits_0.
    destruct (Z.lt_ge_cases m n) as [Hlt|Hge].
    - rewrite Z.mul_pow2_bits_low by exact Hlt. apply andb_false_r.
    - destruct (Z.eq_dec u 0) as [->|Hne]; [rewrite Z.bits_0; reflexivity|].
      rewrite (Z.bits_above_log2 u m); [reflexivity | lia |].
      apply Z.lt_le_trans with n; [|exact Hge].
      apply Z.log2_lt_pow2; lia. }
  pose proof (Z.add_lor_land u (v * 2 ^ n)) as H. rewrite Hland in H. lia.
Qed.

Lemma word_lshift_one_bit (x y : Z) :
  is_word x → is_word y →
  gorbn_t (Z.lor (Z.shiftl x 1) (Z.shiftr y GORBN_SZWORD_BITS_MINUS_ONE))
  = (2 * x + y / 2 ^ 15) mod 2 ^ 16.
Proof.
  unfold is_word, gorbn_t, GORBN_SZWORD_BITS_MINUS_ONE. intros Hx Hy.
  rewrite Z.shiftl_mul_pow2, Z.shiftr_div_pow2 by lia.
  rewrite Z.lor_comm, lor_disjoint; [f_equal; lia | lia |].
  Z.div_mod_to_equations. lia.
Qed.

Lemma word_rshift_one_bit (x y : Z) :
  is_word x → is_word y →
  gorbn_t (Z.lor (Z.shiftr x 1) (Z.shiftl y GORBN_SZWORD_BITS_MINUS_ONE))
  = x / 2 + 2 ^ 15 * (y mod 2).
Proof.
  unfold is_word, gorbn_t, GORBN_SZWORD_BITS_MINUS_ONE. intros Hx Hy.
  rewrite Z.shiftl_mul_pow2, Z.shiftr_div_pow2 by lia.
  rewrite lor_disjoint; [|lia|change (2 ^ 1) with 2; Z.div_mod_to_equations; lia].
  change (2 ^ 1) with 2. Z.div_mod_to_equations. lia.
Qed.

Lemma drop_store (w : list Z) (i : nat) (v : Z) :
  (i < length w)%nat → drop i (store w i v) = gorbn_t v :: drop (S i) w.
Proof.
  intros Hi. unfold store. rewrite insert_take_drop by exact Hi.
  rewrite drop_app_length' by (rewrite length_take_le; lia). reflexivity.
Qed.

Lemma magnitude_drop (l : list Z) (i : nat) :
  (i < length l)%nat →
  magnitude (drop i l) = l !!! i + 2 ^ 16 * magnitude (drop (S i) l).
Proof.
  intros Hi.
  rewrite (drop_S l (l !!! i) i) by (apply list_lookup_lookup_total_lt; exact Hi).
  reflexivity.
Qed.

Lemma rshift_one_bit_magnitude (a : gorbn_bignum) :
  wf_number (number a) →
  sign (_gorbn_rshift_one_bit a) = sign a ∧
  wf_number (number (_gorbn_rshift_one_bit a)) ∧
  magnitude (number (_gorbn_rshift_one_bit a)) = magnitude (number a) / 2.
Proof.
  intros [Hl Hw]. unfold _gorbn_rshift_one_bit. cbn [sign number].
  split; [reflexivity|].
  assert (HN : GORBN_SZARR = S (GORBN_SZARR - 1)) by reflexivity.
  set (n := (GORBN_SZARR - 1)%nat) in *.
  set (body := λ (i : nat) (w : list Z),
         store w i (Z.lor (Z.shiftr (w !!! i) 1)
                      (Z.shiftl (w !!! (i + 1)%nat) GORBN_SZWORD_BITS_MINUS_ONE))).
  destruct (for_up_ind
    (λ k w, length w = GORBN_SZARR ∧
       (∀ j, (k ≤ j < GORBN_SZARR)%nat → w !!! j = number a !!! j) ∧
       Forall is_word (take k w) ∧
       2 * magnitude (take k w) + (number a !!! 0%nat) mod 2
       = magnitude (take k (number a)) + (number a !!! k) mod 2 * radix_pow k)
    body (number a) n) as (Hlen & Hhi & Hwk & Hinv).
  { split; [exact Hl|]. split; [intros j Hj; reflexivity|].
    split; [constructor|]. rewrite !take_0. cbn [magnitude]. rewrite radix_pow_0. lia. }
  { intros k w Hk (Hlen & Hhi & Hwk & Hinv). unfold body.
    rewrite (Hhi k), (Hhi (k + 1)%nat) by lia.
    pose proof (is_word_lookup_total (number a) k Hw) as Hx.
    pose proof (is_word_lookup_total (number a) (k + 1) Hw) as Hy.
    pose proof (word_rshift_one_bit _ _ Hx Hy) as Hv.
    set (x := number a !!! k) in *. set (y := number a !!! (k + 1)%nat) in *.
    split; [unfold store; rewrite length_insert; exact Hlen|].
    split; [intros j Hj; rewrite store_lookup_total, decide_False by lia; apply Hhi; lia|].
    rewrite take_S_store by lia. split.
    - apply Forall_app_2; [exact Hwk|]. apply Forall_singleton, is_word_gorbn_t.
    - rewrite magnitude_app, length_take_le by lia. cbn [magnitude].
      rewrite Hv, magnitude_take_S by lia. fold x.
      replace (S k) with (k + 1)%nat by lia. fold y.
      rewrite (Nat.add_comm k 1), radix_pow_S. cbn [Nat.add].
      pose proof (Z.div_mod x 2 ltac:(lia)) as Hdm.
      pose proof (radix_pow_pos k). nia. }
  pose proof (is_word_lookup_total (number a) n Hw) as Hx.
  rewrite (Hhi n) by lia.
  set (w := for_up n body (number a)) in *.
  assert (Hv : gorbn_t (Z.shiftr (number a !!! n) 1) = number a !!! n / 2).
  { unfold gorbn_t. rewrite Z.shiftr_div_pow2 by lia. unfold is_word in Hx.
    change (2 ^ 1) with 2. Z.div_mod_to_equations. lia. }
  assert (Hfull : store w n (Z.shiftr (number a !!! n) 1)
                  = take n w ++ [number a !!! n / 2]).
  { rewrite <- Hv, <- take_S_store by lia. rewrite take_ge; [reflexivity|].
    unfold store. rewrite length_insert. lia. }
  rewrite Hfull.
  assert (Hwf : Forall is_word (take n w ++ [number a !!! n / 2])).
  { apply Forall_app_2; [exact Hwk|]. apply Forall_singleton.
    unfold is_word in *. Z.div_mod_to_equations. lia. }
  split.
  { split; [|exact Hwf]. rewrite length_app, length_take_le by lia. cbn [length]. lia. }
  rewrite magnitude_app, length_take_le by lia. cbn [magnitude].
  assert (HM : magnitude (number a)
               = magnitude (take n (number a)) + radix_pow n * (number a !!! n)).
  { rewrite <- magnitude_take_S by lia. rewrite take_ge by lia. reflexivity. }
  pose proof (Z.div_mod (number a !!! n) 2 ltac:(lia)) as Hdm.
  pose proof (Z.mod_pos_bound (number a !!! 0%nat) 2 ltac:(lia)) as Hb0.
  pose proof (radix_pow_pos n).
  apply Z.div_unique with (r := (number a !!! 0%nat) mod 2); [left; lia|]. nia.
Qed.

(** X17.  [_gorbn_rshift_one_bit] halves the magnitude, rounding down: the
    lowest bit is lost, every other bit moves one place down across the word
    boundaries.  The sign stays. *)
Theorem _gorbn_rshift_one_bit_spec (a : gorbn_bignum) :
  wf_number (number a) →
  sign (_gorbn_rshift_one_bit a) = sign a ∧
  wf_number (number (_gorbn_rshift_one_bit a)) ∧
  magnitude (number (_gorbn_rshift_one_bit a)) = magnitude (number a) / 2.
Proof.
  intros Ha. destruct (rshift_one_bit_magnitude a Ha) as (Hs & [Hl Hw] & Hm).
  split; [exact Hs|]. split; [split; [exact Hl | exact Hw] | exact Hm].
Qed.

Lemma _gorbn_rshift_one_bit_spec_witness :
  sign (_gorbn_rshift_one_bit gorbn_max) = sign gorbn_max ∧
  wf_number (number (_gorbn_rshift_one_bit gorbn_max)) ∧
  magnitude (number (_gorbn_rshift_one_bit gorbn_max)) = magnitude (number gorbn_max) / 2.
Proof. apply (_gorbn_rshift_one_bit_spec gorbn_max). by_evaluation. Defined.

(** The loop of [_gorbn_lshift_one_bit] on an array of [S n] words. *)
Lemma lshift_one_bit_loop (a0 : list Z) (n : nat) :
  length a0 = S n → Forall is_word a0 →
  length (for_down 1 n lshift_round a0) = S n ∧
  for_down 1 n lshift_round a0 !!! 0%nat = a0 !!! 0%nat ∧
  Forall is_word (drop 1 (for_down 1 n lshift_round a0)) ∧
  magnitude (drop 1 (for_down 1 n lshift_round a0)) + radix_pow n * (a0 !!! n / 2 ^ 15)
  = 2 * magnitude (drop 1 a0) + a0 !!! 0%nat / 2 ^ 15.
Proof.
  intros Hl Hw.
  destruct (for_down_ind
    (λ j w, length w = S n ∧
       (∀ i, (i < j)%nat → w !!! i = a0 !!! i) ∧
       Forall is_word (drop j w) ∧
       magnitude (drop j w) + radix_pow (S n - j) * (a0 !!! n / 2 ^ 15)
       = 2 * magnitude (drop j a0) + a0 !!! (j - 1)%nat / 2 ^ 15)
    lshift_round 1 n a0) as (Hlen & Hlo & Hwd & Hinv).
  { split; [exact Hl|]. split; [intros i Hi; reflexivity|].
    rewrite !drop_ge by lia. split; [constructor|].
    replace (S n - (1 + n))%nat with 0%nat by lia.
    replace (1 + n - 1)%nat with n by lia.
    rewrite radix_pow_0. cbn [magnitude]. lia. }
  { intros i w Hi (Hlen & Hlo & Hwd & Hinv). unfold lshift_round.
    rewrite (Hlo i), (Hlo (i - 1)%nat) by lia.
    pose proof (is_word_lookup_total a0 i Hw) as Hx.
    pose proof (is_word_lookup_total a0 (i - 1) Hw) as Hy.
    pose proof (word_lshift_one_bit _ _ Hx Hy) as Hv.
    replace (S i - 1)%nat with i in Hinv by lia.
    set (x := a0 !!! i) in *. set (y := a0 !!! (i - 1)%nat) in *.
    split; [unfold store; rewrite length_insert; exact Hlen|].
    split; [intros k Hk; rewrite store_lookup_total, decide_False by lia; apply Hlo; lia|].
    rewrite drop_store by lia. rewrite Hv. split.
    - constructor; [|exact Hwd]. unfold is_word. apply Z.mod_pos_bound. lia.
    - cbn [magnitude]. rewrite (magnitude_drop a0 i) by lia. fold x.
      replace (S n - i)%nat with (S (S n - S i)) by lia.
      rewrite radix_pow_S. unfold is_word in Hx, Hy.
      assert (Hw16 : (2 * x + y / 2 ^ 15) mod 2 ^ 16 + 2 ^ 16 * (x / 2 ^ 15)
                     = 2 * x + y / 2 ^ 15)
        by (Z.div_mod_to_equations; lia).
      pose proof (radix_pow_pos (S n - S i)). nia. }
  split; [exact Hlen|]. split; [apply Hlo; lia|]. split; [exact Hwd|].
  replace (S n - 1)%nat with n in Hinv by lia.
  replace (1 - 1)%nat with 0%nat in Hinv by lia. exact Hinv.
Qed.

(** The array [_gorbn_lshift_one_bit] leaves, for an array of [S n] words. *)
Lemma lshift_one_bit_number (a0 : list Z) (n : nat) :
  length a0 = S n → Forall is_word a0 →
  length (store (for_down 1 n lshift_round a0) 0
            (Z.shiftl (for_down 1 n lshift_round a0 !!! 0%nat) 1)) = S n ∧
  Forall is_word (store (for_down 1 n lshift_round a0) 0
                    (Z.shiftl (for_down 1 n lshift_round a0 !!! 0%nat) 1)) ∧
  magnitude (store (for_down 1 n lshift_round a0) 0
               (Z.shiftl (for_down 1 n lshift_round a0 !!! 0%nat) 1))
  = (2 * magnitude a0) mod radix_pow (S n).
Proof.
  intros Hl Hw.
  destruct (lshift_one_bit_loop a0 n Hl Hw) as (Hlen & Hw0 & Hwd & Hinv).
  set (w := for_down 1 n lshift_round a0) in *. rewrite Hw0.
  pose proof (is_word_lookup_total a0 0 Hw) as Hx. unfold is_word in Hx.
  assert (Hfull : store w 0 (Z.shiftl (a0 !!! 0%nat) 1)
                  = (2 * (a0 !!! 0%nat)) mod 2 ^ 16 :: drop 1 w).
  { rewrite <- (drop_0 (store w 0 _)), drop_store by lia.
    unfold gorbn_t. rewrite Z.shiftl_mul_pow2 by lia. do 2 f_equal. lia. }
  rewrite Hfull.
  assert (Hwf : Forall is_word ((2 * (a0 !!! 0%nat)) mod 2 ^ 16 :: drop 1 w)).
  { constructor; [|exact Hwd]. unfold is_word. apply Z.mod_pos_bound. lia. }
  split; [cbn [length]; rewrite length_drop; lia|]. split; [exact Hwf|].
  pose proof (magnitude_bound _ Hwf) as Hb.
  cbn [length] in Hb. rewrite length_drop, Hlen in Hb.
  replace (S (S n - 1)) with (S n) in Hb by lia.
  cbn [magnitude] in Hb |- *.
  assert (HM : magnitude a0 = a0 !!! 0%nat + 2 ^ 16 * magnitude (drop 1 a0)).
  { rewrite <- (magnitude_drop a0 0) by lia. rewrite drop_0. reflexivity. }
  assert (Hw16 : (2 * (a0 !!! 0%nat)) mod 2 ^ 16 + 2 ^ 16 * (a0 !!! 0%nat / 2 ^ 15)
                 = 2 * (a0 !!! 0%nat))
    by (Z.div_mod_to_equations; lia).
  rewrite radix_pow_S in Hb |- *.
  apply Z.mod_unique with (q := a0 !!! n / 2 ^ 15); [left; exact Hb|]. nia.
Qed.

Lemma lshift_one_bit_magnitude (a : gorbn_bignum) :
  wf_number (number a) →
  sign (_gorbn_lshift_one_bit a) = sign a ∧
  wf_number (number (_gorbn_lshift_one_bit a)) ∧
  magnitude (number (_gorbn_lshift_one_bit a))
  = (2 * magnitude (number a)) mod radix_pow GORBN_SZARR.
Proof.
  intros [Hl Hw]. split; [reflexivity|].
  destruct (lshift_one_bit_number (number a) (GORBN_SZARR - 1) Hl Hw)
    as (Hlen & Hwf & Hmag).
  split; [split; [exact Hlen | exact Hwf] | exact Hmag].
Qed.

(** X18.  [_gorbn_lshift_one_bit] doubles the magnitude modulo
    2^(16 * GORBN_SZARR): every bit moves one place up across the word
    boundaries and the highest bit of the array is lost.  The sign stays. *)
Theorem _gorbn_lshift_one_bit_spec (a : gorbn_bignum) :
  wf_number (number a) →
  sign (_gorbn_lshift_one_bit a) = sign a ∧
  wf_number (number (_gorbn_lshift_one_bit a)) ∧
  magnitude (number (_gorbn_lshift_one_bit a))
  = (2 * magnitude (number a)) mod radix_pow GORBN_SZARR.
Proof.
  intros Ha. destruct (lshift_one_bit_magnitude a Ha) as (Hs & [Hl Hw] & Hm).
  split; [exact Hs|]. split; [split; [exact Hl | exact Hw] | exact Hm].
Qed.

Lemma _gorbn_lshift_one_bit_spec_witness :
  sign (_gorbn_lshift_one_bit gorbn_max) = sign gorbn_max ∧
  wf_number (number (_gorbn_lshift_one_bit gorbn_max)) ∧
  magnitude (number (_gorbn_lshift_one_bit gorbn_max))
  = (2 * magnitude (number gorbn_max)) mod radix_pow GORBN_SZARR.
Proof. apply (_gorbn_lshift_one_bit_spec gorbn_max). by_evaluation. Defined.

(** X19.  A shift left by one bit followed by a shift right by one bit gives
    the bignum back, sign and words, when its highest bit is clear (twice the
    magnitude fits in [GORBN_SZARR] words). *)
Theorem _gorbn_lshift_rshift_one_bit (a : gorbn_bignum) :
  wf_number (number a) →
  2 * magnitude (number a) < radix_pow GORBN_SZARR →
  _gorbn_rshift_one_bit (_gorbn_lshift_one_bit a) = a.
Proof.
  intros Ha Hfit.
  destruct (lshift_one_bit_magnitude a Ha) as (Hs1 & Hwf1 & Hm1).
  destruct (rshift_one_bit_magnitude _ Hwf1) as (Hs2 & Hwf2 & Hm2).
  pose proof (magnitude_bound _ (proj2 Ha)) as Hb.
  rewrite Hm1, Z.mod_small in Hm2 by lia.
  destruct (_gorbn_rshift_one_bit (_gorbn_lshift_one_bit a)) as [s w].
  cbn [sign number] in Hs2, Hwf2, Hm2.
  assert (Hs : s = sign a) by congruence. clear Hs1 Hs2 Hwf1 Hm1.
  destruct a as [sa wa]. cbn [sign number] in *. f_equal; [exact Hs|].
  apply magnitude_inj; [apply Hwf2 | apply Ha | |].
  - rewrite (proj1 Hwf2), (proj1 Ha). reflexivity.
  - rewrite Hm2. rewrite Z.mul_comm, Z.div_mul by lia. reflexivity.
Qed.

Lemma _gorbn_lshift_rshift_one_bit_witness :
  _gorbn_rshift_one_bit (_gorbn_lshift_one_bit (gorbn_from_int gorbn_declared (-70001)))
  = gorbn_from_int gorbn_declared (-70001).
Proof.
  apply (_gorbn_lshift_rshift_one_bit (gorbn_from_int gorbn_declared (-70001)));
    by_evaluation.
Defined.

(** ** Products *)

Lemma wr_ok_words (w w' : list Z) (i : nat) (v : Z) :
  Forall is_word w → wr w i v = Ok w' → Forall is_word w'.
Proof.
  intros Hw. unfold wr. case_decide; [|discriminate]. intros [= <-].
  apply Forall_insert; [exact Hw | apply is_word_gorbn_t].
Qed.

Lemma mul_inner_ok_words (a b : gorbn_bignum) (i j : nat) (st st' : list Z * Z) :
  Forall is_word st.1 → mul_inner a b i j st = Ok st' → Forall is_word st'.1.
Proof.
  destruct st as [w c]. intros Hw. unfold mul_inner.
  destruct (rd w (i + j)); cbn [mbind result_bind]; [|discriminate].
  destruct (rd (number a) j); cbn [mbind result_bind]; [|discriminate].
  destruct (rd (number b) i); cbn [mbind result_bind]; [|discriminate].
  destruct (wr w (i + j) _) as [w'|] eqn:E; cbn [mbind result_bind]; [|discriminate].
  intros [= <-]. eapply wr_ok_words; [exact Hw | exact E].
Qed.

Lemma mul_outer_ok_words (a b : gorbn_bignum) (n i : nat) (w w' : list Z) :
  Forall is_word w → mul_outer a b n i w = Ok w' → Forall is_word w'.
Proof.
  intros Hw. unfold mul_outer.
  destruct (for_range 0 n (mul_inner a b i) (w, 0)) as [[w1 c1]|] eqn:E;
    cbn [mbind result_bind]; [|discriminate].
  apply wr_ok_words.
  apply (for_range_ok (λ st : list Z * Z, Forall is_word st.1)
           (mul_inner a b i) n 0 (w, 0) (w1, c1)
           (λ j u u' Hu Hwu, mul_inner_ok_words a b i j u u' Hwu Hu) Hw E).
Qed.

(** X20.  Whatever the operands, a product that [gorbn_mul] returns has sign
    +1 and a well-formed word array: the signs of the operands are not used. *)
Theorem gorbn_mul_result (r a b x : gorbn_bignum) :
  length (number r) = GORBN_SZARR →
  gorbn_mul r a b = Ok x →
  sign x = 1 ∧ wf_number (number x).
Proof.
  intros Hr. unfold gorbn_mul.
  rewrite (gorbn_init_eq gorbn_declared) by apply length_replicate. cbn [number sign].
  destruct (for_range 0 _ _ _) as [w|e] eqn:E; cbn [mbind result_bind]; [|discriminate].
  assert (Hwf : wf_number w).
  { split.
    - rewrite (mul_outer_loop_length _ _ _ _ _ _ _ E). apply length_replicate.
    - apply (for_range_ok (Forall is_word)
               (mul_outer a b (_gorbn_get_ndigits a)) (_gorbn_get_ndigits b) 0
               (replicate GORBN_SZARR 0) w
               (λ i u u' Hu Hw, mul_outer_ok_words a b _ i u u' Hw Hu)); [|exact E].
      apply Forall_replicate. unfold is_word. lia. }
  intros [= <-]. rewrite gorbn_copy_same by assumption. split; [reflexivity | exact Hwf].
Qed.

Lemma gorbn_mul_result_witness :
  sign (gorbn_from_uint gorbn_declared 6) = 1 ∧
  wf_number (number (gorbn_from_uint gorbn_declared 6)).
Proof.
  apply (gorbn_mul_result gorbn_max (gorbn_from_int gorbn_declared (-2))
           (gorbn_from_int gorbn_declared (-3)) (gorbn_from_uint gorbn_declared 6)).
  - reflexivity.
  - vm_compute. reflexivity.
Defined.

Lemma magnitude_take_ndigits (a : gorbn_bignum) :
  wf_number (number a) →
  magnitude (number a) = magnitude (take (_gorbn_get_ndigits a) (number a)).
Proof.
  intros [Hl Hw]. unfold _gorbn_get_ndigits.
  destruct (ndigits_scan_spec (number a) GORBN_SZARR) as [Hz _].
  pose proof (ndigits_scan_le (number a) GORBN_SZARR) as Hle.
  set (n := ndigits_scan (number a) GORBN_SZARR) in *.
  rewrite <- (take_drop n (number a)) at 1.
  rewrite magnitude_app, (magnitude_all_zero (drop n (number a))); [lia|].
  intros j Hj. rewrite length_drop in Hj.
  rewrite lookup_total_drop. apply Hz. lia.
Qed.

Lemma ndigits_zero_iff (a : gorbn_bignum) :
  wf_number (number a) →
  _gorbn_get_ndigits a = 0%nat ↔ magnitude (number a) = 0.
Proof.
  intros Ha. pose proof (magnitude_take_ndigits a Ha) as Hm. split.
  - intros Hn. rewrite Hm, Hn. reflexivity.
  - intros Hz. unfold _gorbn_get_ndigits in *.
    destruct (ndigits_scan_spec (number a) GORBN_SZARR) as [_ Hnz].
    pose proof (ndigits_scan_le (number a) GORBN_SZARR) as Hle.
    destruct (ndigits_scan (number a) GORBN_SZARR) as [|m] eqn:En; [reflexivity|].
    exfalso. apply Hnz; [congruence|].
    apply (magnitude_zero_iff _ (proj2 Ha)) in Hz.
    rewrite Nat.sub_succ, Nat.sub_0_r.
    eapply (Forall_lookup_1 _ _ m) in Hz; [exact Hz|].
    apply list_lookup_lookup_total_lt. rewrite (proj1 Ha). lia.
Qed.

(** X21.  A product with a zero operand is the zero of sign +1: always when
    [b] is zero, and when [a] is zero provided [b] has fewer than
    [GORBN_SZARR] digits. *)
Theorem gorbn_mul_zero (r a b : gorbn_bignum) :
  length (number r) = GORBN_SZARR →
  wf_number (number a) → wf_number (number b) →
  magnitude (number b) = 0 ∨
  (magnitude (number a) = 0 ∧ (_gorbn_get_ndigits b < GORBN_SZARR)%nat) →
  gorbn_mul r a b = Ok {| sign := 1; number := replicate GORBN_SZARR 0 |}.
Proof.
  intros Hr Ha Hb Hz. unfold gorbn_mul.
  rewrite (gorbn_init_eq gorbn_declared) by apply length_replicate. cbn [number sign].
  assert (Hloop : for_range 0 (_gorbn_get_ndigits b)
                    (mul_outer a b (_gorbn_get_ndigits a)) (replicate GORBN_SZARR 0)
                  = Ok (replicate GORBN_SZARR 0)).
  { destruct Hz as [Hzb|[Hza Hnb]].
    - rewrite (proj2 (ndigits_zero_iff b Hb) Hzb). reflexivity.
    - rewrite (proj2 (ndigits_zero_iff a Ha) Hza).
      destruct (for_range_inv (λ w, w = replicate GORBN_SZARR 0)
                  (mul_outer a b 0) (_gorbn_get_ndigits b) 0 (replicate GORBN_SZARR 0)
                  eq_refl) as (w & Hw & ->); [|exact Hw].
      intros i t Hi ->. unfold mul_outer. cbn [for_range mbind result_bind].
      rewrite wr_lt by (rewrite length_replicate; lia).
      eexists. split; [reflexivity|]. apply insert_replicate. }
  rewrite Hloop. cbn [mbind result_bind]. f_equal. apply gorbn_copy_same; [exact Hr|].
  split; [apply length_replicate | apply Forall_replicate; unfold is_word; lia].
Qed.

Lemma gorbn_mul_zero_witness :
  gorbn_mul gorbn_max (gorbn_init gorbn_declared) (gorbn_from_int gorbn_declared (-70000))
  = Ok {| sign := 1; number := replicate GORBN_SZARR 0 |}.
Proof.
  apply (gorbn_mul_zero gorbn_max (gorbn_init gorbn_declared)
           (gorbn_from_int gorbn_declared (-70000))).
  - reflexivity.
  - by_evaluation.
  - by_evaluation.
  - right. split; [reflexivity | by_evaluation].
Defined.

Lemma magnitude_insert (w : list Z) (i : nat) (v : Z) :
  (i < length w)%nat →
  magnitude (<[i := v]> w) = magnitude w + radix_pow i * (v - w !!! i).
Proof.
  intros Hi. rewrite insert_take_drop by exact Hi.
  rewrite <- (take_drop_middle w i (w !!! i)) at 3
    by (apply list_lookup_lookup_total_lt; exact Hi).
  rewrite !magnitude_app, length_take_le by lia. cbn [magnitude]. ring.
Qed.

(** The inner loop of the first outer round on a cleared buffer: after [n]
    rounds the first [n] words and the carry hold the product of the first
    [n] words of [a] by word 0 of [b]. *)
Lemma mul_inner_first_round (a b : gorbn_bignum) (n : nat) :
  Forall is_word (number a) → Forall is_word (number b) →
  (n ≤ length (number a))%nat → (0 < length (number b))%nat → (n ≤ GORBN_SZARR)%nat →
  ∃ w c, for_range 0 n (mul_inner a b 0) (replicate GORBN_SZARR 0, 0) = Ok (w, c) ∧
         length w = GORBN_SZARR ∧
         drop n w = replicate (GORBN_SZARR - n) 0 ∧
         Forall is_word (take n w) ∧ 0 ≤ c < 2 ^ 16 ∧
         magnitude (take n w) + c * radix_pow n
         = magnitude (take n (number a)) * (number b !!! 0%nat).
Proof.
  intros Ha Hb Hna Hnb Hn.
  destruct (for_range_ind
    (λ j (st : list Z * Z),
       length st.1 = GORBN_SZARR ∧
       drop j st.1 = replicate (GORBN_SZARR - j) 0 ∧
       Forall is_word (take j st.1) ∧ 0 ≤ st.2 < 2 ^ 16 ∧
       magnitude (take j st.1) + st.2 * radix_pow j
       = magnitude (take j (number a)) * (number b !!! 0%nat))
    (mul_inner a b 0) n (replicate GORBN_SZARR 0, 0))
    as ([w c] & Hloop & Hinv).
  - cbn [fst snd]. split; [apply length_replicate|].
    split; [rewrite drop_0, Nat.sub_0_r; reflexivity|].
    rewrite !take_0. split; [constructor|]. cbn [magnitude]. lia.
  - intros j [w c] Hj (Hlen & Hdrop & Hwt & Hc & Hmag). cbn [fst snd] in *.
    assert (Hwj : w !!! j = 0).
    { replace (w !!! j) with (drop j w !!! 0%nat)
        by (rewrite lookup_total_drop; f_equal; lia).
      rewrite Hdrop. apply lookup_total_replicate_2. lia. }
    pose proof (is_word_lookup_total _ j Ha) as Hx.
    pose proof (is_word_lookup_total _ 0 Hb) as Hy. unfold is_word in Hx, Hy.
    unfold mul_inner. cbn [Nat.add].
    rewrite !rd_lt by lia. cbn [mbind result_bind]. rewrite Hwj.
    set (x := number a !!! j) in *. set (y := number b !!! 0%nat) in *.
    assert (Hxy : 0 ≤ x * y ≤ 65535 * 65535) by nia.
    assert (Huv : gorbn_utmp_t (0 + gorbn_utmp_t (x * y) + c) = x * y + c).
    { unfold gorbn_utmp_t. rewrite (Z.mod_small (x * y)) by lia.
      apply Z.mod_small. lia. }
    rewrite Huv, wr_lt_store by lia. cbn [mbind result_bind].
    eexists. split; [reflexivity|]. cbn [fst snd].
    rewrite !land_max_val.
    unfold GORBN_SZWORD_BITS. rewrite Z.shiftr_div_pow2 by lia.
    pose proof (Z.div_mod (x * y + c) (2 ^ 16) ltac:(lia)) as Hdm.
    pose proof (Z.mod_pos_bound (x * y + c) (2 ^ 16) ltac:(lia)) as Hmod.
    assert (Hq : 0 ≤ (x * y + c) / 2 ^ 16 < 2 ^ 16).
    { split; [apply Z.div_pos; lia|]. apply Z.div_lt_upper_bound; lia. }
    rewrite (Z.mod_small ((x * y + c) / 2 ^ 16)) by exact Hq.
    split; [unfold store; rewrite length_insert; exact Hlen|].
    split.
    { unfold store. rewrite drop_insert_lt by lia.
      replace (S j) with (j + 1)%nat by lia.
      rewrite <- drop_drop, Hdrop, drop_replicate. f_equal. lia. }
    rewrite take_S_store by lia.
    split; [apply Forall_app_2; [exact Hwt|]; apply Forall_singleton, is_word_gorbn_t|].
    split; [exact Hq|].
    rewrite magnitude_app, length_take_le by lia. cbn [magnitude].
    rewrite gorbn_t_word by exact Hmod.
    rewrite magnitude_take_S by lia. fold x. rewrite radix_pow_S.
    pose proof (radix_pow_pos j). nia.
  - exists w, c. split; [exact Hloop | exact Hinv].
Qed.

(** X23.  Multiplying by a [b] of one digit: the low [n] words of the
    product, [n] the digit count of [a], are right, and what exceeds them is
    stored one word too high, at index [n + 1].  The magnitude returned is
    the product exactly when the product needs no more digits than [a]. *)
Theorem gorbn_mul_one_digit (r a b : gorbn_bignum) :
  length (number r) = GORBN_SZARR →
  wf_number (number a) → wf_number (number b) →
  _gorbn_get_ndigits b = 1%nat →
  (_gorbn_get_ndigits a + 2 ≤ GORBN_SZARR)%nat →
  ∃ x, gorbn_mul r a b = Ok x ∧
       magnitude (number x)
       = (magnitude (number a) * magnitude (number b)) mod radix_pow (_gorbn_get_ndigits a)
         + radix_pow (_gorbn_get_ndigits a + 1)
           * ((magnitude (number a) * magnitude (number b))
              / radix_pow (_gorbn_get_ndigits a)) ∧
       (magnitude (number x) = magnitude (number a) * magnitude (number b)
        ↔ magnitude (number a) * magnitude (number b)
          < radix_pow (_gorbn_get_ndigits a)).
Proof.
  intros Hr Ha Hb Hnb Hcap.
  pose proof (magnitude_take_ndigits a Ha) as HA.
  pose proof (magnitude_take_ndigits b Hb) as HB.
  rewrite Hnb in HB.
  rewrite (take_S_r (number b) 0 (number b !!! 0%nat)) in HB
    by (apply list_lookup_lookup_total_lt; rewrite (proj1 Hb); unfold GORBN_SZARR; lia).
  rewrite take_0 in HB. cbn [app magnitude] in HB. rewrite Z.mul_0_r, Z.add_0_r in HB.
  set (n := _gorbn_get_ndigits a) in *.
  destruct (mul_inner_first_round a b n (proj2 Ha) (proj2 Hb))
    as (w & c & Hloop & Hlen & Hdrop & Hwt & Hc & Hmag);
    [rewrite (proj1 Ha); lia | rewrite (proj1 Hb); unfold GORBN_SZARR; lia | lia |].
  rewrite <- HA, <- HB in Hmag.
  unfold gorbn_mul. fold n. rewrite Hnb.
  rewrite (gorbn_init_eq gorbn_declared) by apply length_replicate. cbn [number sign].
  cbn [for_range]. unfold mul_outer at 1. rewrite Hloop. cbn [mbind result_bind Nat.add].
  rewrite wr_lt by lia. cbn [mbind result_bind].
  assert (Hw : Forall is_word w).
  { rewrite <- (take_drop n w), Hdrop. apply Forall_app_2; [exact Hwt|].
    apply Forall_replicate. unfold is_word. lia. }
  assert (Hwf : wf_number (<[(n + 1)%nat := gorbn_t c]> w)).
  { split; [rewrite length_insert; exact Hlen|].
    apply Forall_insert; [exact Hw | apply is_word_gorbn_t]. }
  rewrite gorbn_copy_same by assumption.
  eexists. split; [reflexivity|]. cbn [number].
  assert (Hw1 : w !!! (n + 1)%nat = 0).
  { replace (w !!! (n + 1)%nat) with (drop n w !!! 1%nat)
      by (rewrite lookup_total_drop; reflexivity).
    rewrite Hdrop. apply lookup_total_replicate_2. lia. }
  assert (Hmw : magnitude w = magnitude (take n w)).
  { rewrite <- (take_drop n w) at 1.
    rewrite magnitude_app, Hdrop, magnitude_replicate_0. lia. }
  rewrite magnitude_insert by lia.
  rewrite Hw1, Hmw, gorbn_t_word by exact Hc.
  pose proof (magnitude_bound _ Hwt) as Hbt. rewrite length_take_le in Hbt by lia.
  pose proof (radix_pow_pos n) as HR.
  set (P := magnitude (number a) * magnitude (number b)) in *.
  assert (Hq : P / radix_pow n = c).
  { symmetry. apply Z.div_unique with (r := magnitude (take n w)); [left; lia | lia]. }
  assert (Hm : P mod radix_pow n = magnitude (take n w)).
  { symmetry. apply Z.mod_unique with (q := c); [left; lia | lia]. }
  rewrite Hq, Hm. split; [ring|].
  rewrite (Nat.add_comm n 1), radix_pow_S. cbn [Nat.add].
  assert (Hc0 : c = 0 ∨ radix_pow n ≤ radix_pow n * c).
  { destruct (decide (c = 0)) as [|Hne]; [left; assumption | right].
    rewrite <- (Z.mul_1_r (radix_pow n)) at 1. apply Z.mul_le_mono_nonneg_l; lia. }
  split; intros H; destruct Hc0 as [-> | Hge]; lia.
Qed.

Lemma gorbn_mul_one_digit_witness :
  let a := gorbn_from_uint gorbn_declared 70000 in
  let b := gorbn_from_uint gorbn_declared 60000 in
  ∃ x, gorbn_mul gorbn_declared a b = Ok x ∧
       magnitude (number x)
       = (magnitude (number a) * magnitude (number b)) mod radix_pow (_gorbn_get_ndigits a)
         + radix_pow (_gorbn_get_ndigits a + 1)
           * ((magnitude (number a) * magnitude (number b))
              / radix_pow (_gorbn_get_ndigits a)) ∧
       (magnitude (number x) = magnitude (number a) * magnitude (number b)
        ↔ magnitude (number a) * magnitude (number b)
          < radix_pow (_gorbn_get_ndigits a)).
Proof.
  cbv zeta.
  apply (gorbn_mul_one_digit gorbn_declared (gorbn_from_uint gorbn_declared 70000)
           (gorbn_from_uint gorbn_declared 60000)).
  - reflexivity.
  - by_evaluation.
  - by_evaluation.
  - vm_compute. reflexivity.
  - by_evaluation.
Defined.

(** ** Buffers that do not fit *)

Lemma wr_word_ok_length (bo : byte_order) (d d' : list Z) (i : nat) (v : Z) :
  wr_word bo d i v = Ok d' → length d' = length d.
Proof.
  unfold wr_word. case_decide; [|discriminate]. intros [= <-].
  rewrite !length_insert. reflexivity.
Qed.

Lemma wr_word_ge (bo : byte_order) (d : list Z) (i : nat) (v : Z) :
  (length d ≤ 2 * i + 1)%nat → wr_word bo d i v = Err OutOfBounds.
Proof. intros Hi. unfold wr_word. rewrite decide_False by lia. reflexivity. Qed.

(** X24.  [gorbn_to_data] into a buffer shorter than the word array (and
    declared no longer than it is) never returns: with assertions enabled
    the assertion on [data_size] fails, without them a word is written past
    the end of the buffer. *)
Theorem gorbn_to_data_too_small (asserts : bool) (bo : byte_order) (data : list Z)
    (data_size : nat) (n : gorbn_bignum) :
  (length data < GORBN_SZARR * GORBN_SZWORD)%nat → (data_size ≤ length data)%nat →
  gorbn_to_data asserts bo data data_size n
  = Err (if asserts then AssertFailed else OutOfBounds).
Proof.
  change (GORBN_SZARR * GORBN_SZWORD)%nat with (2 * GORBN_SZARR)%nat.
  intros Hlen Hsize. unfold gorbn_to_data, GORBN_ASSERT.
  change (GORBN_SZARR * GORBN_SZWORD)%nat with (2 * GORBN_SZARR)%nat.
  rewrite bool_decide_eq_false_2 by lia. cbn [negb].
  destruct asserts; cbn [andb mbind result_bind]; [reflexivity|].
  pose proof (Nat.div_mod_eq (length data) 2) as Hdm.
  pose proof (Nat.mod_upper_bound (length data) 2 ltac:(lia)) as Hm.
  set (i0 := (length data / 2)%nat) in *.
  replace GORBN_SZARR with (i0 + S (GORBN_SZARR - S i0))%nat at 1 by lia.
  rewrite for_range_app.
  destruct (for_range_ind_from (λ _ d, length d = length data)
              (λ i d, wr_word bo d i (number n !!! i)) i0 0 data eq_refl)
    as (d1 & Hd1 & Hl1).
  { intros i d Hi Hd. unfold wr_word. rewrite decide_True by lia.
    eexists. split; [reflexivity|]. rewrite !length_insert. exact Hd. }
  rewrite Hd1. cbn [mbind result_bind for_range Nat.add].
  rewrite wr_word_ge by lia. reflexivity.
Qed.

Lemma gorbn_to_data_too_small_witness :
  gorbn_to_data false BigEndian (replicate 255 7) 255 gorbn_max = Err OutOfBounds.
Proof.
  apply (gorbn_to_data_too_small false BigEndian (replicate 255 7) 255 gorbn_max);
    by_evaluation.
Defined.

(** X25.  [gorbn_from_data] with a [data_size] larger than the buffer, or
    larger than the word array, does not return: it reads past the end of
    the buffer or writes past the end of the array. *)
Theorem gorbn_from_data_too_large (bo : byte_order) (n : gorbn_bignum) (data : list Z)
    (data_size : nat) :
  length (number n) = GORBN_SZARR → Forall is_byte data →
  (length data < data_size)%nat ∨ (GORBN_SZARR * GORBN_SZWORD < data_size)%nat →
  gorbn_from_data bo n data data_size = Err OutOfBounds.
Proof.
  change (GORBN_SZARR * GORBN_SZWORD)%nat with (2 * GORBN_SZARR)%nat.
  intros Hn Hdata Hbig. unfold gorbn_from_data.
  rewrite (gorbn_init_eq n Hn). cbn [number sign].
  set (k0 := min (2 * GORBN_SZARR) (length data)).
  replace data_size with (k0 + S (data_size - S k0))%nat by lia.
  rewrite for_range_app.
  destruct (from_data_loop bo data k0 Hdata ltac:(lia) ltac:(lia))
    as (w & Hloop & [Hlw Hw] & _).
  rewrite Hloop. cbn [mbind result_bind for_range Nat.add].
  destruct (decide (k0 = length data)) as [Hk|Hk].
  - rewrite rd_ge by lia. reflexivity.
  - rewrite rd_lt by lia. cbn [mbind result_bind]. unfold wr_byte.
    assert (Hk0 : k0 = (2 * GORBN_SZARR)%nat) by lia.
    rewrite Hk0, (Nat.mul_comm 2 GORBN_SZARR), Nat.div_mul by lia.
    rewrite rd_ge by lia. reflexivity.
Qed.

Lemma gorbn_from_data_too_large_witness :
  gorbn_from_data LittleEndian gorbn_declared (replicate 300 9) 257 = Err OutOfBounds.
Proof.
  apply (gorbn_from_data_too_large LittleEndian gorbn_declared (replicate 300 9) 257).
  - reflexivity.
  - by_evaluation.
  - right. by_evaluation.
Defined.

(** ** The value of imported bytes *)

Lemma le_bytes_value_app_zeros (bs : list Z) (k : nat) :
  le_bytes_value (bs ++ replicate k 0) = le_bytes_value bs.
Proof.
  induction bs as [|x bs IH]; cbn [app le_bytes_value].
  - induction k as [|k IHk]; cbn [replicate le_bytes_value]; lia.
  - rewrite IH. reflexivity.
Qed.

Lemma le_bytes_value_bytes_of (w : list Z) :
  Forall is_word w → le_bytes_value (bytes_of LittleEndian w) = magnitude w.
Proof.
  induction 1 as [|x w Hx _ IH]; [reflexivity|].
  cbn [bytes_of word_bytes app le_bytes_value magnitude].
  rewrite IH. change (byte_lane LittleEndian 0) with 0%nat.
  change (byte_lane LittleEndian 1) with 1%nat. cbn [get_byte].
  rewrite shiftr_8. unfold is_word in Hx. Z.div_mod_to_equations. lia.
Qed.

(** X26.  On a little-endian machine [gorbn_from_data] of a buffer that fits
    builds the well-formed bignum of sign +1 whose value is the integer the
    bytes spell, least significant byte first. *)
Theorem gorbn_from_data_value (n : gorbn_bignum) (data : list Z) :
  length (number n) = GORBN_SZARR → Forall is_byte data →
  (length data ≤ GORBN_SZARR * GORBN_SZWORD)%nat →
  ∃ bn, gorbn_from_data LittleEndian n data (length data) = Ok bn ∧
        wf_bignum bn ∧ sign bn = 1 ∧ gorbn_value bn = le_bytes_value data.
Proof.
  change (GORBN_SZARR * GORBN_SZWORD)%nat with (2 * GORBN_SZARR)%nat.
  intros Hn Hdata Hcap. unfold gorbn_from_data.
  rewrite (gorbn_init_eq n Hn). cbn [number sign].
  destruct (from_data_loop LittleEndian data (length data) Hdata (le_n _) Hcap)
    as (w & Hloop & Hwf & Himg).
  rewrite Hloop. cbn [mbind result_bind]. eexists. split; [reflexivity|].
  unfold wf_bignum, gorbn_value. cbn [sign number].
  split; [split; [left; reflexivity | exact Hwf]|]. split; [reflexivity|].
  rewrite Z.mul_1_l, <- (le_bytes_value_bytes_of w (proj2 Hwf)), Himg.
  rewrite take_ge by lia. apply le_bytes_value_app_zeros.
Qed.

Lemma gorbn_from_data_value_witness :
  ∃ bn, gorbn_from_data LittleEndian gorbn_max [1; 2; 3] (length [1; 2; 3]) = Ok bn ∧
        wf_bignum bn ∧ sign bn = 1 ∧ gorbn_value bn = le_bytes_value [1; 2; 3].
Proof.
  apply (gorbn_from_data_value gorbn_max [1; 2; 3]).
  - reflexivity.
  - by_evaluation.
  - by_evaluation.
Defined.

(** ** Export followed by import *)

Lemma word_bytes_inj (bo : byte_order) (x y : Z) :
  is_word x → is_word y → word_bytes bo x = word_bytes bo y → x = y.
Proof.
  unfold is_word, word_bytes. intros Hx Hy.
  destruct (byte_lane_cases bo) as [[-> ->]|[-> ->]]; cbn [get_byte];
    rewrite !shiftr_8; intros [= H1 H2]; Z.div_mod_to_equations; lia.
Qed.

Lemma bytes_of_inj (bo : byte_order) (w1 w2 : list Z) :
  Forall is_word w1 → Forall is_word w2 → length w1 = length w2 →
  bytes_of bo w1 = bytes_of bo w2 → w1 = w2.
Proof.
  intros H1. revert w2. induction H1 as [|x w1 Hx _ IH]; intros w2 H2 Hlen Hb.
  - destruct w2; [reflexivity | discriminate Hlen].
  - destruct H2 as [|y w2 Hy H2]; [discriminate Hlen|].
    cbn [bytes_of] in Hb. unfold word_bytes in Hb. cbn [app] in Hb.
    injection Hb as Hb0 Hb1 Hb. f_equal.
    + apply (word_bytes_inj bo); [exact Hx | exact Hy|]. unfold word_bytes. congruence.
    + apply IH; [exact H2 | simpl in Hlen; lia | exact Hb].
Qed.

Lemma is_byte_bytes_of (bo : byte_order) (w : list Z) :
  Forall is_word w → Forall is_byte (bytes_of bo w).
Proof.
  induction 1 as [|x w Hx _ IH]; [constructor|].
  cbn [bytes_of]. apply Forall_app_2; [|exact IH]. unfold word_bytes, is_word in *.
  destruct (byte_lane_cases bo) as [[-> ->]|[-> ->]]; cbn [get_byte];
    rewrite !shiftr_8; repeat constructor; unfold is_byte;
    Z.div_mod_to_equations; lia.
Qed.

(** X27.  Exporting a bignum with [gorbn_to_data] and importing the bytes
    again with [gorbn_from_data] gives back its words, with sign +1 whatever
    the sign was: the bytes do not carry the sign. *)
Theorem gorbn_to_data_from_data (asserts : bool) (bo : byte_order) (a n : gorbn_bignum)
    (dst : list Z) (data_size : nat) :
  wf_number (number a) → length (number n) = GORBN_SZARR →
  Forall is_byte dst →
  (GORBN_SZARR * GORBN_SZWORD ≤ data_size)%nat → (data_size ≤ length dst)%nat →
  (d ← gorbn_to_data asserts bo dst data_size a;
   gorbn_from_data bo n d (GORBN_SZARR * GORBN_SZWORD))
  = Ok {| sign := 1; number := number a |}.
Proof.
  change (GORBN_SZARR * GORBN_SZWORD)%nat with (2 * GORBN_SZARR)%nat.
  intros [Hla Hwa] Hn Hdst Hsize Hlen.
  unfold gorbn_to_data, GORBN_ASSERT.
  change (GORBN_SZARR * GORBN_SZWORD)%nat with (2 * GORBN_SZARR)%nat.
  rewrite bool_decide_eq_true_2 by exact Hsize.
  rewrite andb_false_r. cbn [mbind result_bind].
  rewrite to_data_loop by lia. cbn [mbind result_bind].
  rewrite take_ge by lia.
  set (d := bytes_of bo (number a) ++ drop (2 * GORBN_SZARR) dst).
  assert (Hd : Forall is_byte d).
  { apply Forall_app_2; [apply is_byte_bytes_of, Hwa | apply Forall_drop, Hdst]. }
  assert (Hld : length (bytes_of bo (number a)) = (2 * GORBN_SZARR)%nat).
  { rewrite length_bytes_of, Hla. reflexivity. }
  unfold gorbn_from_data. rewrite (gorbn_init_eq n Hn). cbn [number sign].
  destruct (from_data_loop bo d (2 * GORBN_SZARR) Hd) as (w & Hloop & Hwf & Himg);
    [unfold d; rewrite length_app; lia | lia |].
  rewrite Hloop. cbn [mbind result_bind]. do 2 f_equal.
  apply (bytes_of_inj bo); [apply Hwf | exact Hwa | rewrite (proj1 Hwf); lia|].
  rewrite Himg, Nat.sub_diag. cbn [replicate]. rewrite app_nil_r.
  unfold d. rewrite take_app_length' by (symmetry; exact Hld). reflexivity.
Qed.

Lemma gorbn_to_data_from_data_witness :
  (d ← gorbn_to_data true BigEndian (replicate 260 7) 258
         (gorbn_from_int gorbn_declared (-70000));
   gorbn_from_data BigEndian gorbn_max d (GORBN_SZARR * GORBN_SZWORD))
  = Ok {| sign := 1; number := number (gorbn_from_int gorbn_declared (-70000)) |}.
Proof.
  apply (gorbn_to_data_from_data true BigEndian (gorbn_from_int gorbn_declared (-70000))
           gorbn_max (replicate 260 7) 258).
  - by_evaluation.
  - reflexivity.
  - by_evaluation.
  - by_evaluation.
  - by_evaluation.
Defined.

Lemma gorbn_mul_out_of_bounds_witness :
  gorbn_mul gorbn_declared (gorbn_init gorbn_declared) gorbn_max = Err OutOfBounds.
Proof.
  apply (gorbn_mul_out_of_bounds gorbn_declared (gorbn_init gorbn_declared) gorbn_max).
  - vm_compute. discriminate.
  - by_evaluation.
Defined.
